(** * Saliency metric accumulator ([Metric] of eval.py)

    A shallow embedding of the class [Metric] of [src/eval.py] and the
    properties its specification states about it.

    Arithmetic.  The program is embedded once, over an abstract signature
    of the floating-point operations it uses ([Arith]).  Two instances are
    given:
    - [ieee_arith prec emax]: IEEE-754 binary arithmetic, round to nearest
      even, over [spec_float]; [b64] is numpy's float64 / Python's float;
    - [exact_arith]: exact rational arithmetic extended with one undefined
      value ([XNaN]) for results that are NaN or infinite in IEEE (the
      square root, used by the object term only, is a parameter).
    The source mixes float32 arrays with float64 scalars and sums array
    elements pairwise; the embedding uses one number type per instance and
    sums from left to right.  The precision/recall sweep and the report
    are float64 throughout in the source, so [b64] is bit-exact for them.

    State.  numpy arrays are objects: the embedding keeps them in a heap
    and passes locations, so that the in-place binarisation of the ground
    truth in [compute_s_measure] is a heap write. *)

From Stdlib Require Import ZArith QArith Qcanon Qround Bool String Lia.
From Stdlib Require Import SpecFloat.
From stdpp Require Import base list.

Local Open Scope Z_scope.

(** ** The arithmetic signature *)

Class Arith (F : Type) := {
  of_Z : Z -> F;              (* conversion of an integer *)
  fadd : F -> F -> F;
  fsub : F -> F -> F;
  fmul : F -> F -> F;
  fdiv : F -> F -> F;
  fabs : F -> F;
  fsqrt : F -> F;
  fround : F -> F;            (* np.round / round: nearest, ties to even *)
  to_int64 : F -> Z;          (* astype(np.int64): truncation *)
  fltb : F -> F -> bool;
  fleb : F -> F -> bool;
  feqb : F -> F -> bool;
  fisnan : F -> bool
}.

(** The decimal literal [m / 10^k] (as in [1e-4] = [lit 1 4]).  [m] and
    [10^k] are exact in binary64 for every literal of the program and the
    division is correctly rounded, so this is the literal's value. *)
Definition lit {F} `{Arith F} (m : Z) (k : Z) : F :=
  fdiv (of_Z m) (of_Z (10 ^ k)).

Definition fgtb {F} `{Arith F} (x y : F) : bool := fltb y x.
Definition fgeb {F} `{Arith F} (x y : F) : bool := fleb y x.
Definition fneqb {F} `{Arith F} (x y : F) : bool := negb (feqb x y).

(** ** IEEE-754 instance *)

Module IEEE.
Section Format.
Variables prec emax : Z.

Definition sf_of_Z (z : Z) : spec_float := binary_normalize prec emax z 0 false.

(** Nearest integer, ties to even, of a finite float [(-1)^s m 2^e]. *)
Definition rint_finite (s : bool) (m : positive) (e : Z) : Z :=
  let a :=
    if 0 <=? e then Z.pos m * 2 ^ e
    else
      let d := 2 ^ (- e) in
      let q := Z.pos m / d in
      let r := Z.pos m mod d in
      match 2 * r ?= d with
      | Lt => q
      | Gt => q + 1
      | Eq => if Z.even q then q else q + 1
      end in
  if s then - a else a.

Definition sf_round (x : spec_float) : spec_float :=
  match x with
  | S754_finite s m e =>
      match rint_finite s m e with
      | Z0 => S754_zero s
      | z => sf_of_Z z
      end
  | _ => x
  end.

Definition INT64_MIN : Z := - 2 ^ 63.

(** [astype(np.int64)]: truncation towards zero; NaN, infinities and
    values out of range give the minimal int64 (x86-64). *)
Definition sf_to_int64 (x : spec_float) : Z :=
  match x with
  | S754_zero _ => 0
  | S754_finite s m e =>
      let a := if 0 <=? e then Z.pos m * 2 ^ e else Z.pos m / 2 ^ (- e) in
      let z := if s then - a else a in
      if (INT64_MIN <=? z) && (z <? 2 ^ 63) then z else INT64_MIN
  | _ => INT64_MIN
  end.

Definition sf_isnan (x : spec_float) : bool :=
  match x with S754_nan => true | _ => false end.

#[local] Instance ieee_arith : Arith spec_float := {|
  of_Z := sf_of_Z;
  fadd := SFadd prec emax;
  fsub := SFsub prec emax;
  fmul := SFmul prec emax;
  fdiv := SFdiv prec emax;
  fabs := SFabs;
  fsqrt := SFsqrt prec emax;
  fround := sf_round;
  to_int64 := sf_to_int64;
  fltb := SFltb;
  fleb := SFleb;
  feqb := SFeqb;
  fisnan := sf_isnan
|}.
End Format.

(** numpy's float64 and Python's float. *)
Definition b64 : Arith spec_float := ieee_arith 53 1024.
(** numpy's float32. *)
Definition b32 : Arith spec_float := ieee_arith 24 128.
End IEEE.

(** ** Exact instance *)

Module Exact.

(** An exact rational, or the undefined value. *)
Inductive xq : Type :=
| XNaN
| XFin (v : Qc).

Definition lift2 (f : Qc -> Qc -> Qc) (x y : xq) : xq :=
  match x, y with
  | XFin a, XFin b => XFin (f a b)
  | _, _ => XNaN
  end.

Definition lift1 (f : Qc -> Qc) (x : xq) : xq :=
  match x with
  | XFin a => XFin (f a)
  | XNaN => XNaN
  end.

Definition xdiv (x y : xq) : xq :=
  match x, y with
  | XFin a, XFin b => if Qc_eq_dec b 0%Qc then XNaN else XFin (a / b)%Qc
  | _, _ => XNaN
  end.

Definition Qcabs (a : Qc) : Qc := if Qclt_le_dec a 0%Qc then (- a)%Qc else a.

(** Nearest integer, ties to even. *)
Definition Qc_rint (a : Qc) : Z :=
  let f := Qfloor a in
  match (a - Qc_of_Z f ?= Q2Qc (1 # 2))%Qc with
  | Lt => f
  | Gt => f + 1
  | Eq => if Z.even f then f else f + 1
  end.

(** Truncation towards zero. *)
Definition Qc_trunc (a : Qc) : Z :=
  if Qclt_le_dec a 0%Qc then Qceiling a else Qfloor a.

Definition xcmp (p : comparison -> bool) (x y : xq) : bool :=
  match x, y with
  | XFin a, XFin b => p (a ?= b)%Qc
  | _, _ => false
  end.

Definition is_Lt (c : comparison) := match c with Lt => true | _ => false end.
Definition is_Eq (c : comparison) := match c with Eq => true | _ => false end.
Definition is_Le (c : comparison) := match c with Gt => false | _ => true end.

Section WithSqrt.
(** The rationals are not closed under square roots: the exact instance
    takes the square root as a parameter, and every theorem about it
    holds for every choice. *)
Variable sqrt_fn : Qc -> Qc.

#[local] Instance exact_arith : Arith xq := {|
  of_Z := fun z => XFin (Qc_of_Z z);
  fadd := lift2 Qcplus;
  fsub := lift2 Qcminus;
  fmul := lift2 Qcmult;
  fdiv := xdiv;
  fabs := lift1 Qcabs;
  fsqrt := lift1 sqrt_fn;
  fround := lift1 (fun a => Qc_of_Z (Qc_rint a));
  to_int64 := fun x => match x with XFin a => Qc_trunc a | XNaN => - 2 ^ 63 end;
  fltb := xcmp is_Lt;
  fleb := xcmp is_Le;
  feqb := xcmp is_Eq;
  fisnan := fun x => match x with XNaN => true | XFin _ => false end
|}.
End WithSqrt.
End Exact.

(** ** Arrays, Python values, the heap *)

(** A 2-D numpy array: its [shape] (rows, columns) and its rows. *)
Record ndarray (A : Type) := NDArray {
  shape : nat * nat;
  elems : list (list A)
}.
Arguments NDArray {A} _ _.
Arguments shape {A} _.
Arguments elems {A} _.

Definition flat {A} (a : ndarray A) : list A := concat (elems a).

(** [a.size]: the product of the dimensions. *)
Definition asize {A} (a : ndarray A) : nat := (fst (shape a) * snd (shape a))%nat.

Definition amap {A B} (f : A -> B) (a : ndarray A) : ndarray B :=
  NDArray (shape a) (map (map f) (elems a)).

Definition azip {A B C} (f : A -> B -> C) (a : ndarray A) (b : ndarray B) : ndarray C :=
  NDArray (shape a) (zip_with (zip_with f) (elems a) (elems b)).

(** [a[mask] = v]. *)
Definition mask_assign {A} (a : ndarray A) (mask : ndarray bool) (v : A) : ndarray A :=
  azip (fun x (m : bool) => if m then v else x) a mask.

(** [a[mask]]: the selected elements, in row-major order. *)
Definition mask_select {A} (a : ndarray A) (mask : ndarray bool) : list A :=
  omap (fun xm : A * bool => if snd xm then Some (fst xm) else None)
       (zip (flat a) (flat mask)).

(** Python's slice [l[start:stop]], negative indices counting from the
    end; [slice_bounds n start stop] is the pair (first index, length). *)
Definition slice_index (n i : Z) : Z :=
  if i <? 0 then Z.max (i + n) 0 else Z.min i n.

Definition slice_bounds (n : nat) (start stop : Z) : nat * nat :=
  let s := slice_index (Z.of_nat n) start in
  let e := slice_index (Z.of_nat n) stop in
  (Z.to_nat s, Z.to_nat (e - s)).

Definition py_slice {A} (start stop : Z) (l : list A) : list A :=
  let '(s, k) := slice_bounds (length l) start stop in
  take k (drop s l).

(** [a[r0:r1, c0:c1]]. *)
Definition aslice {A} (a : ndarray A) (r0 r1 c0 c1 : Z) : ndarray A :=
  NDArray (snd (slice_bounds (fst (shape a)) r0 r1),
           snd (slice_bounds (snd (shape a)) c0 c1))
          (map (py_slice c0 c1) (py_slice r0 r1 (elems a))).

(** Every element satisfies [R]. *)
Definition all_entries {A} (R : A -> Prop) (a : ndarray A) : Prop :=
  Forall (Forall R) (elems a).

(** [np.sum] of an integer array. *)
Definition isum (a : ndarray Z) : Z := fold_left Z.add (flat a) 0.

(** The columns of rows of width [ncols]. *)
Fixpoint transpose {A} (ncols : nat) (rows : list (list A)) : list (list A) :=
  match rows with
  | [] => replicate ncols []
  | r :: rows' => zip_with cons r (transpose ncols rows')
  end.

(** A number held by an attribute of the object: a Python [int], or a
    float (Python's or numpy's). *)
Inductive pyval (F : Type) : Type :=
| PyInt (z : Z)
| NpFloat (f : F).
Arguments PyInt {F} _.
Arguments NpFloat {F} _.

Inductive exn : Type :=
| AssertionError
| ZeroDivisionError.

Definition loc := nat.

(** ** The program *)

Section Program.
Context {F : Type} {AF : Arith F}.

Definition to_F (v : pyval F) : F :=
  match v with PyInt z => of_Z z | NpFloat f => f end.

(** [x + y] on attribute values. *)
Definition py_add (x y : pyval F) : pyval F :=
  match x, y with
  | PyInt a, PyInt b => PyInt (a + b)
  | _, _ => NpFloat (fadd (to_F x) (to_F y))
  end.

(** [x / c] for an [int] [c]: between two Python ints a zero divisor
    raises; a numpy float divided by zero is NaN or infinite (numpy
    warns and goes on). *)
Definition py_truediv (x : pyval F) (c : Z) : exn + pyval F :=
  match x with
  | PyInt a => if c =? 0 then inl ZeroDivisionError
               else inr (NpFloat (fdiv (of_Z a) (of_Z c)))
  | NpFloat f => inr (NpFloat (fdiv f (of_Z c)))
  end.

Record Metric := mkMetric {
  epsilon : F;
  beta : F;
  thresholds : Z;
  mae : pyval F;
  max_f : pyval F;
  precision : list F;
  recall : list F;
  q : pyval F;
  cnt : Z
}.

(** [Metric.__init__] *)
Definition init : Metric := {|
  epsilon := lit 1 4;
  beta := lit 3 1;
  thresholds := 256;
  mae := PyInt 0;
  max_f := PyInt 0;
  precision := replicate (Z.to_nat 256) (of_Z 0);
  recall := replicate (Z.to_nat 256) (of_Z 0);
  q := PyInt 0;
  cnt := 0
|}.

(** The interpreter state: the arrays, the [Metric] object, and what
    was printed (label and value). *)
Record world := mkWorld {
  heap : list (ndarray F);
  self : Metric;
  stdout : list (string * pyval F)
}.

(** State that survives an exception, and an outcome. *)
Definition M (A : Type) : Type := world -> (exn + A) * world.

Definition ret {A} (a : A) : M A := fun w => (inr a, w).
Definition bind {A B} (c : M A) (k : A -> M B) : M B :=
  fun w => match c w with
           | (inl e, w') => (inl e, w')
           | (inr a, w') => k a w'
           end.
Definition raise {A} (e : exn) : M A := fun w => (inl e, w).

Definition empty_array : ndarray F := NDArray (0%nat, 0%nat) [].

(** Dereference: every location the program holds is allocated. *)
Definition deref (h : list (ndarray F)) (l : loc) : ndarray F :=
  default empty_array (h !! l).
Definition get (l : loc) : M (ndarray F) :=
  fun w => (inr (deref (heap w) l), w).
Definition alloc (a : ndarray F) : M loc :=
  fun w => (inr (length (heap w)),
            mkWorld (heap w ++ [a]) (self w) (stdout w)).
Definition store (l : loc) (a : ndarray F) : M unit :=
  fun w => (inr tt, mkWorld (<[l := a]> (heap w)) (self w) (stdout w)).
Definition get_self : M Metric := fun w => (inr (self w), w).
Definition set_self (m : Metric) : M unit :=
  fun w => (inr tt, mkWorld (heap w) m (stdout w)).
Definition print (label : string) (v : pyval F) : M unit :=
  fun w => (inr tt, mkWorld (heap w) (self w) (stdout w ++ [(label, v)])).
Definition lift_exn {A} (r : exn + A) : M A :=
  match r with inl e => raise e | inr a => ret a end.
Definition assert_ (b : bool) : M unit :=
  if b then ret tt else raise AssertionError.

End Program.

Arguments Metric F : clear implicits.
Arguments world F : clear implicits.
Arguments M F A : clear implicits.

Declare Scope mon_scope.
Delimit Scope mon_scope with mon.
Notation "'let*' x := c 'in' k" := (bind c (fun x => k))
  (at level 10, x name, c at level 100, k at level 200) : mon_scope.
Notation "c ;; k" := (bind c (fun _ => k))
  (at level 100, k at level 200, right associativity) : mon_scope.

Section Methods.
Context {F : Type} {AF : Arith F}.
Local Open Scope mon_scope.
Local Open Scope string_scope.

(** *** Reductions *)

Definition fsum (l : list F) : F := fold_left fadd l (of_Z 0).

(** [a.mean()] *)
Definition amean (a : ndarray F) : F :=
  fdiv (fsum (flat a)) (of_Z (Z.of_nat (asize a))).

(** [temp.mean()] and [temp.std()] of a 1-D selection. *)
Definition lmean (l : list F) : F :=
  fdiv (fsum l) (of_Z (Z.of_nat (length l))).
Definition lstd (l : list F) : F :=
  let m := lmean l in
  fsqrt (lmean (map (fun v => let d := fabs (fsub v m) in fmul d d) l)).

(** *** compute_mae *)

Definition mae_value (pred gt : ndarray F) : F :=
  amean (amap fabs (azip fsub pred gt)).

Definition compute_mae (pred gt : loc) : M F unit :=
  let* p := get pred in
  let* g := get gt in
  let* m := get_self in
  set_self {| epsilon := epsilon m; beta := beta m; thresholds := thresholds m;
              mae := py_add (mae m) (NpFloat (mae_value p g));
              max_f := max_f m; precision := precision m; recall := recall m;
              q := q m; cnt := cnt m |}.

(** *** compute_precision_and_recall *)

(** [a = zeros; a[x > t] = 1; a[x <= t] = 0] *)
Definition binarize (x : ndarray F) (t : F) : ndarray Z :=
  let a := amap (fun _ => 0) x in
  let a := mask_assign a (amap (fun v => fgtb v t) x) 1 in
  mask_assign a (amap (fun v => fleb v t) x) 0.

(** The masks [a] and [b] of one iteration: [pred > th] and
    [gt > th / self.thresholds]. *)
Definition pred_mask (pred : ndarray F) (th : nat) : ndarray Z :=
  binarize pred (of_Z (Z.of_nat th)).
Definition gt_mask (gt : ndarray F) (thresholds : Z) (th : nat) : ndarray Z :=
  binarize gt (fdiv (of_Z (Z.of_nat th)) (of_Z thresholds)).

(** One iteration of the loop over [th]. *)
Definition pr_step (pred gt : ndarray F) (m : Metric F) (th : nat) : Metric F :=
  let a := pred_mask pred th in
  let b := gt_mask gt (thresholds m) th in
  let ab := isum (azip Z.land a b) in
  let a_sum := isum a in
  let b_sum := isum b in
  {| epsilon := epsilon m; beta := beta m; thresholds := thresholds m;
     mae := mae m; max_f := max_f m;
     precision :=
       alter (fun v => fadd v (fdiv (fadd (of_Z ab) (epsilon m))
                                    (fadd (of_Z a_sum) (epsilon m))))
             th (precision m);
     recall :=
       alter (fun v => fadd v (fdiv (fadd (of_Z ab) (epsilon m))
                                    (fadd (of_Z b_sum) (epsilon m))))
             th (recall m);
     q := q m; cnt := cnt m |}.

Definition compute_precision_and_recall (pred gt : loc) : M F unit :=
  let* p := get pred in
  let* g := get gt in
  let* m := get_self in
  set_self (fold_left (pr_step p g) (seq 0 (Z.to_nat (thresholds m))) m).

(** *** S-measure: object term *)

(** [_object] *)
Definition _object (pred : ndarray F) (gt : ndarray F) : F :=
  let temp := mask_select pred (amap (fun g => feqb g (of_Z 1)) gt) in
  if (length temp =? 0)%nat then of_Z 0
  else
    let x := lmean temp in
    let sigma_x := lstd temp in
    fdiv (fmul (of_Z 2) x)
         (fadd (fadd (fadd (fmul x x) (of_Z 1)) sigma_x) (lit 1 20)).

(** [_s_object] *)
Definition _s_object (pred gt : ndarray F) : F :=
  let fg := azip (fun g p => if feqb g (of_Z 0) then of_Z 0 else p) gt pred in
  let bg := azip (fun g p => if feqb g (of_Z 1) then of_Z 0 else fsub (of_Z 1) p) gt pred in
  let o_fg := _object fg gt in
  let o_bg := _object bg (amap (fun g => fsub (of_Z 1) g) gt) in
  let u := amean gt in
  fadd (fmul u o_fg) (fmul (fsub (of_Z 1) u) o_bg).

(** *** S-measure: region term *)

(** What [_centroid] returns for a coordinate: a numpy int64 scalar, or
    (empty mask) a 1x1 int64 array. *)
Inductive coord : Type :=
| Int64 (z : Z)
| Arr11 (z : Z).

(** [x] if [isinstance(x, np.int64)], else [x[0][0]]. *)
Definition coord_index (c : coord) : Z :=
  match c with Int64 z => z | Arr11 z => z end.

(** Python's [round(n / 2)] for an int [n]. *)
Definition py_round_half (n : nat) : Z :=
  to_int64 (fround (fdiv (of_Z (Z.of_nat n)) (of_Z 2))).

(** [np.arange(0, n)] as floats *)
Definition arange (n : nat) : list F := map (fun k => of_Z (Z.of_nat k)) (seq 0 n).

Definition sum_axis1 (a : ndarray F) : list F := map fsum (elems a).
Definition sum_axis0 (a : ndarray F) : list F :=
  map fsum (transpose (snd (shape a)) (elems a)).

(** [_centroid] *)
Definition _centroid (gt : ndarray F) : coord * coord :=
  let '(rows, cols) := shape gt in
  if feqb (fsum (flat gt)) (of_Z 0) then
    (Arr11 (to_int64 (fmul (of_Z 1) (of_Z (py_round_half cols)))),
     Arr11 (to_int64 (fmul (of_Z 1) (of_Z (py_round_half rows)))))
  else
    let total := fsum (flat gt) in
    let i := arange cols in
    let j := arange rows in
    let x := fround (fdiv (fsum (zip_with fmul (sum_axis0 gt) i)) total) in
    let y := fround (fdiv (fsum (zip_with fmul (sum_axis1 gt) j)) total) in
    (Int64 (to_int64 x), Int64 (to_int64 y)).

(** [_divide_gt]: the four quadrants and their weights. *)
Definition _divide_gt (gt : ndarray F) (x y : coord)
  : ndarray F * ndarray F * ndarray F * ndarray F * F * F * F * F :=
  let x := coord_index x in
  let y := coord_index y in
  let '(h, w) := shape gt in
  let hz := Z.of_nat h in
  let wz := Z.of_nat w in
  let area := hz * wz in
  let lt := aslice gt 0 y 0 x in
  let rt := aslice gt 0 y x wz in
  let lb := aslice gt y hz 0 x in
  let rb := aslice gt y hz x wz in
  let x := of_Z x in
  let y := of_Z y in
  let w1 := fdiv (fmul x y) (of_Z area) in
  let w2 := fdiv (fmul (fsub (of_Z wz) x) y) (of_Z area) in
  let w3 := fdiv (fmul x (fsub (of_Z hz) y)) (of_Z area) in
  let w4 := fsub (fsub (fsub (of_Z 1) w1) w2) w3 in
  (lt, rt, lb, rb, w1, w2, w3, w4).

(** [_divide_prediction] *)
Definition _divide_prediction (pred : ndarray F) (x y : coord)
  : ndarray F * ndarray F * ndarray F * ndarray F :=
  let x := coord_index x in
  let y := coord_index y in
  let '(h, w) := shape pred in
  let hz := Z.of_nat h in
  let wz := Z.of_nat w in
  (aslice pred 0 y 0 x, aslice pred 0 y x wz,
   aslice pred y hz 0 x, aslice pred y hz x wz).

(** [_ssim] *)
Definition _ssim (pred gt : ndarray F) : F :=
  let '(h, w) := shape pred in
  let n := Z.of_nat h * Z.of_nat w in
  let x := amean pred in
  let y := amean gt in
  let den := fadd (of_Z (n - 1)) (lit 1 20) in
  let dx := amap (fun v => fsub v x) pred in
  let dy := amap (fun v => fsub v y) gt in
  let sigma_x2 := fdiv (fsum (flat (azip fmul dx dx))) den in
  let sigma_y2 := fdiv (fsum (flat (azip fmul dy dy))) den in
  let sigma_xy := fdiv (fsum (flat (azip fmul dx dy))) den in
  let alpha := fmul (fmul (fmul (of_Z 4) x) y) sigma_xy in
  let beta := fmul (fadd (fmul x x) (fmul y y)) (fadd sigma_x2 sigma_y2) in
  if fneqb alpha (of_Z 0) then fdiv alpha (fadd beta (lit 1 20))
  else if feqb alpha (of_Z 0) && feqb beta (of_Z 0) then of_Z 1
  else of_Z 0.

(** [_s_region] *)
Definition _s_region (pred gt : ndarray F) : F :=
  let '(x, y) := _centroid gt in
  let '(gt1, gt2, gt3, gt4, w1, w2, w3, w4) := _divide_gt gt x y in
  let '(p1, p2, p3, p4) := _divide_prediction pred x y in
  let q1 := _ssim p1 gt1 in
  let q2 := _ssim p2 gt2 in
  let q3 := _ssim p3 gt3 in
  let q4 := _ssim p4 gt4 in
  fadd (fadd (fadd (fmul w1 q1) (fmul w2 q2)) (fmul w3 q3)) (fmul w4 q4).

(** *** compute_s_measure *)

Definition add_q (v : pyval F) : M F unit :=
  let* m := get_self in
  set_self {| epsilon := epsilon m; beta := beta m; thresholds := thresholds m;
              mae := mae m; max_f := max_f m;
              precision := precision m; recall := recall m;
              q := py_add (q m) v; cnt := cnt m |}.

(** The clamp [if q < 0 or np.isnan(q): q = 0]. *)
Definition clamp (v : F) : pyval F :=
  if fltb v (of_Z 0) || fisnan v then PyInt 0 else NpFloat v.

Definition compute_s_measure (pred gt : loc) : M F unit :=
  let alpha := lit 5 1 in
  let* g := get gt in
  let y := amean g in
  if feqb y (of_Z 0) then
    let* p := get pred in
    let x := amean p in
    add_q (NpFloat (fsub (of_Z 1) x))
  else if feqb y (of_Z 1) then
    let* p := get pred in
    let x := amean p in
    add_q (NpFloat x)
  else
    let* g := get gt in
    store gt (mask_assign g (amap (fun v => fgeb v (lit 5 1)) g) (of_Z 1));;
    let* g := get gt in
    store gt (mask_assign g (amap (fun v => fltb v (lit 5 1)) g) (of_Z 0));;
    let* p := get pred in
    let* g := get gt in
    let v := fadd (fmul alpha (_s_object p g))
                  (fmul (fsub (of_Z 1) alpha) (_s_region p g)) in
    add_q (clamp v).

(** *** update *)

(** [a.astype(np.float32)]: a new array with the same values. *)
Definition astype (a : loc) : M F loc :=
  let* v := get a in alloc v.

(** [a / 255.0]: a new array. *)
Definition div255 (a : loc) : M F loc :=
  let* v := get a in alloc (amap (fun e => fdiv e (of_Z 255)) v).

Definition shape_eqb (s t : nat * nat) : bool :=
  (fst s =? fst t)%nat && (snd s =? snd t)%nat.

Definition incr_cnt : M F unit :=
  let* m := get_self in
  set_self {| epsilon := epsilon m; beta := beta m; thresholds := thresholds m;
              mae := mae m; max_f := max_f m;
              precision := precision m; recall := recall m;
              q := q m; cnt := cnt m + 1 |}.

Definition update (pred gt : loc) : M F unit :=
  let* p := get pred in
  let* g := get gt in
  assert_ (shape_eqb (shape p) (shape g));;
  let* pred := astype pred in
  let* gt := astype gt in
  let* norm_pred := div255 pred in
  let* norm_gt := div255 gt in
  compute_mae norm_pred norm_gt;;
  compute_precision_and_recall pred gt;;
  compute_s_measure norm_pred norm_gt;;
  incr_cnt.

(** *** print_result *)

(** [(1 + beta) * (precision * recall) / (beta * precision + recall)] *)
Definition f_measure (m : Metric F) : list F :=
  zip_with (fun p r => fdiv (fmul (fadd (of_Z 1) (beta m)) (fmul p r))
                            (fadd (fmul (beta m) p) r))
           (precision m) (recall m).

(** [np.argmax]: the first maximum; a NaN counts as maximal.
    [argmax_from mp idx i l] scans [l], whose first element has index
    [i], with the maximum so far [mp] at index [idx]. *)
Fixpoint argmax_from (mp : F) (idx i : nat) (l : list F) : nat :=
  match l with
  | [] => idx
  | v :: l' =>
      if negb (fleb v mp) then
        if fisnan v then i else argmax_from v i (S i) l'
      else argmax_from mp idx (S i) l'
  end.

Definition argmax (l : list F) : nat :=
  match l with
  | [] => 0%nat
  | v :: l' => if fisnan v then 0%nat else argmax_from v 0 1 l'
  end.

Definition item (l : list F) (i : nat) : F := default (of_Z 0) (l !! i).

Definition print_result : M F unit :=
  let* m := get_self in
  let f_measure := f_measure m in
  let argmax := argmax f_measure in
  let* v := lift_exn (py_truediv (NpFloat (item f_measure argmax)) (cnt m)) in
  print "Max F-measure:" v;;
  let* v := lift_exn (py_truediv (NpFloat (item (precision m) argmax)) (cnt m)) in
  print "Precision:    " v;;
  let* v := lift_exn (py_truediv (NpFloat (item (recall m) argmax)) (cnt m)) in
  print "Recall:       " v;;
  let* v := lift_exn (py_truediv (mae m) (cnt m)) in
  print "MAE:          " v;;
  let* v := lift_exn (py_truediv (q m) (cnt m)) in
  print "S-measure:    " v.

(** *** The driver's loop ([evaluate]): each sample's prediction and
    label are new arrays handed to [update]. *)
Fixpoint feed (samples : list (ndarray F * ndarray F)) : M F unit :=
  match samples with
  | [] => ret tt
  | (p, g) :: rest =>
      let* pred := alloc p in
      let* sal_label := alloc g in
      update pred sal_label;;
      feed rest
  end.

Definition fresh : world F := mkWorld [] init [].

(** *** What one [update] does, as functions of the two arrays *)

Definition set_mae (m : Metric F) (v : pyval F) : Metric F :=
  {| epsilon := epsilon m; beta := beta m; thresholds := thresholds m;
     mae := v; max_f := max_f m; precision := precision m; recall := recall m;
     q := q m; cnt := cnt m |}.
Definition set_q (m : Metric F) (v : pyval F) : Metric F :=
  {| epsilon := epsilon m; beta := beta m; thresholds := thresholds m;
     mae := mae m; max_f := max_f m; precision := precision m; recall := recall m;
     q := v; cnt := cnt m |}.
Definition set_cnt (m : Metric F) (c : Z) : Metric F :=
  {| epsilon := epsilon m; beta := beta m; thresholds := thresholds m;
     mae := mae m; max_f := max_f m; precision := precision m; recall := recall m;
     q := q m; cnt := c |}.

Definition normalize (a : ndarray F) : ndarray F :=
  amap (fun e => fdiv e (of_Z 255)) a.

(** The two assignments [gt[gt >= 0.5] = 1; gt[gt < 0.5] = 0]. *)
Definition binarize_gt (g : ndarray F) : ndarray F :=
  let g1 := mask_assign g (amap (fun v => fgeb v (lit 5 1)) g) (of_Z 1) in
  mask_assign g1 (amap (fun v => fltb v (lit 5 1)) g1) (of_Z 0).

(** Which branch [compute_s_measure] takes. *)
Definition general_case (g : ndarray F) : bool :=
  negb (feqb (amean g) (of_Z 0)) && negb (feqb (amean g) (of_Z 1)).

(** The value added to [self.q], from the normalised arrays. *)
Definition s_measure_value (p g : ndarray F) : pyval F :=
  if feqb (amean g) (of_Z 0) then NpFloat (fsub (of_Z 1) (amean p))
  else if feqb (amean g) (of_Z 1) then NpFloat (amean p)
  else clamp (fadd (fmul (lit 5 1) (_s_object p (binarize_gt g)))
                   (fmul (fsub (of_Z 1) (lit 5 1)) (_s_region p (binarize_gt g)))).

(** The normalised ground truth as [compute_s_measure] leaves it. *)
Definition s_measure_gt (g : ndarray F) : ndarray F :=
  if general_case g then binarize_gt g else g.

(** The object after [update] on arrays with values [P] and [G]. *)
Definition step (m : Metric F) (P G : ndarray F) : Metric F :=
  let m1 := set_mae m (py_add (mae m) (NpFloat (mae_value (normalize P) (normalize G)))) in
  let m2 := fold_left (pr_step P G) (seq 0 (Z.to_nat (thresholds m1))) m1 in
  let m3 := set_q m2 (py_add (q m2) (s_measure_value (normalize P) (normalize G))) in
  set_cnt m3 (cnt m3 + 1).

(** The value added to [self.precision[th]] and [self.recall[th]]. *)
Definition precision_inc (P G : ndarray F) (eps : F) (T : Z) (th : nat) : F :=
  let a := pred_mask P th in
  let b := gt_mask G T th in
  fdiv (fadd (of_Z (isum (azip Z.land a b))) eps) (fadd (of_Z (isum a)) eps).
Definition recall_inc (P G : ndarray F) (eps : F) (T : Z) (th : nat) : F :=
  let a := pred_mask P th in
  let b := gt_mask G T th in
  fdiv (fadd (of_Z (isum (azip Z.land a b))) eps) (fadd (of_Z (isum b)) eps).

(** The sweep as two loops over the vectors. *)
Definition pr_fold (P G : ndarray F) (m : Metric F) (ths : list nat) : Metric F :=
  {| epsilon := epsilon m; beta := beta m; thresholds := thresholds m;
     mae := mae m; max_f := max_f m;
     precision := fold_left (fun l th =>
         alter (fun v => fadd v (precision_inc P G (epsilon m) (thresholds m) th)) th l)
         ths (precision m);
     recall := fold_left (fun l th =>
         alter (fun v => fadd v (recall_inc P G (epsilon m) (thresholds m) th)) th l)
         ths (recall m);
     q := q m; cnt := cnt m |}.

(** The object after the samples, one [step] each. *)
Definition steps (m : Metric F) (samples : list (ndarray F * ndarray F)) : Metric F :=
  fold_left (fun m pg => step m (fst pg) (snd pg)) samples m.

Definition same_shape (pg : ndarray F * ndarray F) : Prop :=
  shape (fst pg) = shape (snd pg).

(** *** Class invariant and valid inputs *)

(** What [__init__] fixes and no method changes. *)
Definition metric_inv (m : Metric F) : Prop :=
  epsilon m = epsilon init /\ beta m = beta init /\ thresholds m = 256 /\
  max_f m = PyInt 0 /\
  length (precision m) = 256%nat /\ length (recall m) = 256%nat.

Definition wf_arrayb (a : ndarray F) : bool :=
  (length (elems a) =? fst (shape a))%nat &&
  forallb (fun r => (length r =? snd (shape a))%nat) (elems a).

(** A pixel intensity in 0..255. *)
Definition valid_pixel (v : F) : bool := fleb (of_Z 0) v && fleb v (of_Z 255).

(** An image: a well-formed array with at least one pixel, all in range. *)
Definition valid_image (a : ndarray F) : bool :=
  wf_arrayb a && (0 <? asize a)%nat && forallb valid_pixel (flat a).

Definition valid_pair (pg : ndarray F * ndarray F) : bool :=
  valid_image (fst pg) && valid_image (snd pg) &&
  shape_eqb (shape (fst pg)) (shape (snd pg)).

(** *** Reference definitions taken from the specification *)

(** Section 5: two accumulators are merged by summing [mae_sum],
    [s_measure_sum], [precision_sum] and [recall_sum] element-wise, and
    [count]; the result is an accumulator with these sums. *)
Definition merge (m1 m2 : Metric F) : Metric F :=
  {| epsilon := epsilon init; beta := beta init; thresholds := thresholds init;
     mae := py_add (mae m1) (mae m2);
     max_f := max_f init;
     precision := zip_with fadd (precision m1) (precision m2);
     recall := zip_with fadd (recall m1) (recall m2);
     q := py_add (q m1) (q m2);
     cnt := cnt m1 + cnt m2 |}.

(** Section 4.5: the report. *)
Record report := mkReport {
  r_index : nat;
  r_max_f : F;
  r_precision : F;
  r_recall : F;
  r_mae : F;
  r_s_measure : F
}.

Definition P_bar (m : Metric F) (th : nat) : F :=
  fdiv (item (precision m) th) (of_Z (cnt m)).
Definition R_bar (m : Metric F) (th : nat) : F :=
  fdiv (item (recall m) th) (of_Z (cnt m)).
(** [F_th = (1 + b2) P R / (b2 P + R)] with [b2 = 0.3], on the averages. *)
Definition F_th (m : Metric F) (th : nat) : F :=
  fdiv (fmul (fadd (of_Z 1) (lit 3 1)) (fmul (P_bar m th) (R_bar m th)))
       (fadd (fmul (lit 3 1) (P_bar m th)) (R_bar m th)).

Definition summarize_ref (m : Metric F) : report :=
  let i := argmax (map (F_th m) (seq 0 256)) in
  {| r_index := i;
     r_max_f := F_th m i;
     r_precision := P_bar m i;
     r_recall := R_bar m i;
     r_mae := fdiv (to_F (mae m)) (of_Z (cnt m));
     r_s_measure := fdiv (to_F (q m)) (of_Z (cnt m)) |}.

(** The five lines [print_result] prints, for a report. *)
Definition report_lines (r : report) : list (string * pyval F) :=
  [("Max F-measure:", NpFloat (r_max_f r));
   ("Precision:    ", NpFloat (r_precision r));
   ("Recall:       ", NpFloat (r_recall r));
   ("MAE:          ", NpFloat (r_mae r));
   ("S-measure:    ", NpFloat (r_s_measure r))].

(** Section 3, threshold axis read on the normalised ground truth: the
    number of pixels whose value divided by 255 exceeds [th / 256]. *)
Definition gt_positive_normalized (G : ndarray F) (th : nat) : Z :=
  Z.of_nat (length (List.filter (fun g => fgtb (fdiv g (of_Z 255))
                                          (fdiv (of_Z (Z.of_nat th)) (of_Z 256)))
                           (flat G))).

(** The number of pixels above a threshold. *)
Definition count_above (x : ndarray F) (t : F) : Z :=
  Z.of_nat (length (List.filter (fun v => fgtb v t) (flat x))).

(** The same count on the values as they are. *)
Definition gt_positive_raw (G : ndarray F) (T : Z) (th : nat) : Z :=
  Z.of_nat (length (List.filter (fun g => fgtb g (fdiv (of_Z (Z.of_nat th)) (of_Z T)))
                           (flat G))).



(** The five lines, as [print_result] computes them. *)
Definition code_lines (m : Metric F) : list (string * pyval F) :=
  let f := f_measure m in
  let i := argmax f in
  [("Max F-measure:", NpFloat (fdiv (item f i) (of_Z (cnt m))));
   ("Precision:    ", NpFloat (fdiv (item (precision m) i) (of_Z (cnt m))));
   ("Recall:       ", NpFloat (fdiv (item (recall m) i) (of_Z (cnt m))));
   ("MAE:          ", NpFloat (fdiv (to_F (mae m)) (of_Z (cnt m))));
   ("S-measure:    ", NpFloat (fdiv (to_F (q m)) (of_Z (cnt m))))].

(** The F-measure of a precision and a recall, for a weight [b]. *)
Definition Fm (b p r : F) : F :=
  fdiv (fmul (fadd (of_Z 1) b) (fmul p r)) (fadd (fmul b p) r).

(** No running sum is NaN; each sum of [m] is at most that of [m']. *)
Definition finite (x : F) : Prop := fisnan x = false.
Definition sums_finite (m : Metric F) : Prop :=
  finite (to_F (mae m)) /\ finite (to_F (q m)) /\
  Forall finite (precision m) /\ Forall finite (recall m).
Definition sums_le (m m' : Metric F) : Prop :=
  fleb (to_F (mae m)) (to_F (mae m')) = true /\
  fleb (to_F (q m)) (to_F (q m')) = true /\
  Forall2 (fun u v => fleb u v = true) (precision m) (precision m') /\
  Forall2 (fun u v => fleb u v = true) (recall m) (recall m').

End Methods.

(** ** Order law used for counting *)

Class ArithOrder (F : Type) {AF : Arith F} : Prop := {
  fltb_fleb : forall x y : F, fltb y x = true -> fleb x y = false
}.

(** ** Sample inputs *)

Definition const_image {F} {AF : Arith F} (h w : nat) (v : Z) : ndarray F :=
  NDArray (h, w) (replicate h (replicate w (of_Z v))).

Definition image_of {F} {AF : Arith F} (h w : nat) (rows : list (list Z)) : ndarray F :=
  NDArray (h, w) (map (map of_Z) rows).

(** The state after the driver's loop over [samples], from a new object. *)
Definition after_feed {F} {AF : Arith F} (samples : list (ndarray F * ndarray F)) : world F :=
  snd (feed samples fresh).

Section Scenarios.
Context {F : Type} (AF : Arith F).

(** [pred = gt =] a 4x4 array of 255. *)
Definition all_255 : world F :=
  after_feed [(const_image 4 4 255, const_image 4 4 255)].

Definition perfect_report : report :=
  {| r_index := 0; r_max_f := of_Z 1; r_precision := of_Z 1; r_recall := of_Z 1;
     r_mae := of_Z 0; r_s_measure := of_Z 1 |}.

Definition all_255_report : Prop :=
  print_result all_255 =
    (inr tt, mkWorld (heap all_255) (self all_255) (report_lines perfect_report)) /\
  argmax (f_measure (self all_255)) = 0%nat.

(** [pred] a 4x4 array of 255, [gt] a 4x4 array of zeros. *)
Definition white_on_empty : world F :=
  after_feed [(const_image 4 4 255, const_image 4 4 0)].

(** What the run adds at threshold 0: precision [eps / (16 + eps)],
    below [1e-5], and recall [eps / eps = 1]. *)
Definition white_on_empty_sums : Prop :=
  q (self white_on_empty) = NpFloat (of_Z 0) /\
  mae (self white_on_empty) = NpFloat (of_Z 1) /\
  precision (self white_on_empty) !! 0%nat
    = Some (fdiv (lit 1 4) (fadd (of_Z 16) (lit 1 4))) /\
  fltb (fdiv (lit 1 4) (fadd (of_Z 16) (lit 1 4))) (lit 1 5) = true /\
  recall (self white_on_empty) !! 0%nat = Some (of_Z 1).

(** The recall sum at threshold 0 is near 0 (at most 0.01). *)
Definition recall0_near_zero (w : world F) : Prop :=
  exists r, recall (self w) !! 0%nat = Some r /\ fleb r (lit 1 2) = true.

(** [print_result] on a new object: three NaN lines, then the exception. *)
Definition nan_lines : list (string * pyval F) :=
  [("Max F-measure:"%string, NpFloat (fdiv (of_Z 0) (of_Z 0)));
   ("Precision:    "%string, NpFloat (fdiv (of_Z 0) (of_Z 0)));
   ("Recall:       "%string, NpFloat (fdiv (of_Z 0) (of_Z 0)))].

Definition empty_report (h : list (ndarray F)) (out : list (string * pyval F)) : Prop :=
  print_result (mkWorld h init out)
    = (inl ZeroDivisionError, mkWorld h init (out ++ nan_lines)) /\
  fisnan (fdiv (of_Z 0) (of_Z 0)) = true.

(** Three times the 1x1 pair [pred = gt = 255]. *)
Definition thrice_perfect : world F :=
  after_feed (replicate 3 (const_image 1 1 255, const_image 1 1 255)).

(** A 1x1 pair of zeros, and twice a 1x2 pair [pred = 255 255],
    [gt = 0 0]. *)
Definition first_half : list (ndarray F * ndarray F) :=
  [(const_image 1 1 0, const_image 1 1 0)].
Definition second_half : list (ndarray F * ndarray F) :=
  replicate 2 (const_image 1 2 255, const_image 1 2 0).

(** A ground truth with the single value 1 (of 255). *)
Definition dim_gt : ndarray F := image_of 1 1 [[1]].

(** A prediction and a ground truth with both classes (2x3), a ground
    truth of another shape, and the caller's state just before
    [update]: the two arrays at locations 0 and 1, a new object. *)
Definition mixed_pred : ndarray F := image_of 2 3 [[10; 220; 30]; [80; 250; 200]].
Definition mixed_gt : ndarray F := image_of 2 3 [[0; 255; 0]; [0; 255; 255]].
Definition wide_gt : ndarray F := const_image 1 2 0.
(** A ground truth with intermediate values (2x3). *)
Definition soft_gt : ndarray F := image_of 2 3 [[0; 200; 90]; [30; 255; 128]].
Definition caller (P G : ndarray F) : world F := mkWorld [P; G] init [].

(** The statements at issue, as propositions of a run. *)
Definition report_as_reference (w : world F) : Prop :=
  stdout (snd (print_result w)) = stdout w ++ report_lines (summarize_ref (self w)).
Definition merge_as_sequence (l1 l2 : list (ndarray F * ndarray F)) : Prop :=
  self (after_feed (l1 ++ l2)) = merge (self (after_feed l1)) (self (after_feed l2)).
Definition gt_counted_normalized (G : ndarray F) (th : nat) : Prop :=
  isum (gt_mask G 256 th) = gt_positive_normalized G th.
Definition silent_on_new_object : Prop :=
  stdout (snd (print_result fresh)) = stdout fresh.

End Scenarios.

(** ** Predicates of the exact instance *)

Section ExactPredicates.
Import Exact.

(** A defined value that is not negative; one in [0, 1]. *)
Definition xnonneg (x : xq) : Prop := exists a, x = XFin a /\ (0 <= a)%Qc.
Definition in_unit (x : xq) : Prop := exists a, x = XFin a /\ (0 <= a)%Qc /\ (a <= 1)%Qc.
Definition pynonneg (v : pyval xq) : Prop :=
  match v with PyInt z => 0 <= z | NpFloat x => xnonneg x end.

End ExactPredicates.

(** * Properties *)

(** ** The heap and the methods, for any arithmetic *)

Section Facts.
Context {F : Type} {AF : Arith F}.
Implicit Types (h t : list (ndarray F)) (w : world F) (l : loc).

Lemma deref_Some h l a : h !! l = Some a -> deref h l = a.
Proof. unfold deref. now intros ->. Qed.

Lemma deref_app_old h t l v : h !! l = Some v -> deref (h ++ t) l = v.
Proof. intros Hl. apply deref_Some, lookup_app_l_Some, Hl. Qed.

Lemma deref_app h t (k : nat) : deref (h ++ t) (length h + k)%nat = deref t k.
Proof. unfold deref. rewrite lookup_app_r by lia. f_equal. f_equal. lia. Qed.

Lemma deref_app0 h t : deref (h ++ t) (length h) = deref t 0%nat.
Proof. rewrite <- (deref_app h t 0%nat). f_equal. lia. Qed.

Lemma deref_insert_eq h l a : (l < length h)%nat -> deref (<[l := a]> h) l = a.
Proof. intros Hl. apply deref_Some, list_lookup_insert_eq, Hl. Qed.

Lemma deref_insert_ne h l l' a : l <> l' -> deref (<[l := a]> h) l' = deref h l'.
Proof. intros Hl. unfold deref. now rewrite list_lookup_insert_ne. Qed.

Lemma lookup_app_plus h t (k : nat) v :
  t !! k = Some v -> (h ++ t) !! (length h + k)%nat = Some v.
Proof.
  intros Hk. rewrite lookup_app_r by lia.
  now replace (length h + k - length h)%nat with k by lia.
Qed.

Lemma shape_eqb_eq (s t : nat * nat) : shape_eqb s t = true <-> s = t.
Proof.
  destruct s as [a b], t as [c d]. unfold shape_eqb. simpl.
  rewrite andb_true_iff, !Nat.eqb_eq. split; [intros [-> ->]; reflexivity|].
  intros [= -> ->]. split; reflexivity.
Qed.

Lemma compute_mae_spec w (pred gt : loc) :
  compute_mae pred gt w =
    (inr tt, mkWorld (heap w)
               (set_mae (self w)
                  (py_add (mae (self w))
                     (NpFloat (mae_value (deref (heap w) pred) (deref (heap w) gt)))))
               (stdout w)).
Proof. reflexivity. Qed.

Lemma compute_precision_and_recall_spec w (pred gt : loc) :
  compute_precision_and_recall pred gt w =
    (inr tt, mkWorld (heap w)
               (fold_left (pr_step (deref (heap w) pred) (deref (heap w) gt))
                  (seq 0 (Z.to_nat (thresholds (self w)))) (self w))
               (stdout w)).
Proof. reflexivity. Qed.

Lemma incr_cnt_spec w :
  incr_cnt w = (inr tt, mkWorld (heap w) (set_cnt (self w) (cnt (self w) + 1)) (stdout w)).
Proof. reflexivity. Qed.

(** [compute_s_measure] adds [s_measure_value] and, in the general case,
    overwrites the array at [gt] with its binarisation. *)
Lemma compute_s_measure_spec w (pred gt : loc) P G :
  heap w !! pred = Some P -> heap w !! gt = Some G -> pred <> gt ->
  compute_s_measure pred gt w =
    (inr tt, mkWorld (<[gt := s_measure_gt G]> (heap w))
                     (set_q (self w) (py_add (q (self w)) (s_measure_value P G)))
                     (stdout w)).
Proof.
  intros HP HG Hne.
  assert (Hlt : (gt < length (heap w))%nat) by (eapply lookup_lt_Some; eauto).
  unfold compute_s_measure, s_measure_gt, s_measure_value, general_case, bind, get, add_q,
    get_self, set_self, store; simpl.
  rewrite (deref_Some _ _ _ HG).
  destruct (feqb (amean G) (of_Z 0)) eqn:E0; simpl.
  - rewrite (deref_Some _ _ _ HP), list_insert_id by exact HG. destruct w; reflexivity.
  - destruct (feqb (amean G) (of_Z 1)) eqn:E1; simpl.
    + rewrite (deref_Some _ _ _ HP), list_insert_id by exact HG. destruct w; reflexivity.
    + repeat first
        [ rewrite (deref_Some _ _ _ HG)
        | rewrite (deref_Some _ _ _ HP)
        | rewrite list_insert_insert_eq
        | rewrite deref_insert_eq by (rewrite ?length_insert; exact Hlt)
        | rewrite deref_insert_ne by congruence
        | progress simpl ].
      reflexivity.
Qed.

Lemma pr_loop_cnt (P G : ndarray F) ths m :
  cnt (fold_left (pr_step P G) ths m) = cnt m.
Proof.
  revert m. induction ths as [|th ths IH]; intros m; simpl; [reflexivity|].
  now rewrite IH.
Qed.

Lemma update_mismatch w (pred gt : loc) P G :
  heap w !! pred = Some P -> heap w !! gt = Some G ->
  shape_eqb (shape P) (shape G) = false ->
  update pred gt w = (inl AssertionError, w).
Proof.
  intros HP HG Hs. unfold update, bind, get, assert_; simpl.
  rewrite (deref_Some _ _ _ HG), (deref_Some _ _ _ HP). rewrite Hs. reflexivity.
Qed.

(** The four calls of [update] after the copies are made. *)
Lemma update_body_spec w (pred gt norm_pred norm_gt : loc) P G NP NG :
  heap w !! pred = Some P -> heap w !! gt = Some G ->
  heap w !! norm_pred = Some NP -> heap w !! norm_gt = Some NG ->
  norm_pred <> norm_gt ->
  bind (compute_mae norm_pred norm_gt)
    (fun _ => bind (compute_precision_and_recall pred gt)
    (fun _ => bind (compute_s_measure norm_pred norm_gt)
    (fun _ => incr_cnt))) w =
  (inr tt,
   mkWorld (<[norm_gt := s_measure_gt NG]> (heap w))
     (let m1 := set_mae (self w) (py_add (mae (self w)) (NpFloat (mae_value NP NG))) in
      let m2 := fold_left (pr_step P G) (seq 0 (Z.to_nat (thresholds m1))) m1 in
      let m3 := set_q m2 (py_add (q m2) (s_measure_value NP NG)) in
      set_cnt m3 (cnt m3 + 1))
     (stdout w)).
Proof.
  intros HP HG HNP HNG Hne.
  unfold bind at 1. rewrite compute_mae_spec.
  unfold bind at 1. rewrite compute_precision_and_recall_spec.
  unfold bind at 1. simpl heap. simpl self. simpl stdout.
  rewrite (compute_s_measure_spec _ norm_pred norm_gt NP NG) by assumption.
  rewrite incr_cnt_spec. simpl.
  rewrite (deref_Some _ _ _ HP), (deref_Some _ _ _ HG),
    (deref_Some _ _ _ HNP), (deref_Some _ _ _ HNG).
  reflexivity.
Qed.

(** [update] on arrays of one shape: four new arrays (the two float
    copies and the two normalised arrays, the last one as
    [compute_s_measure] leaves it) and the object advanced by [step]. *)
Lemma update_spec w (pred gt : loc) P G :
  heap w !! pred = Some P -> heap w !! gt = Some G ->
  shape_eqb (shape P) (shape G) = true ->
  update pred gt w =
    (inr tt, mkWorld (heap w ++ [P; G; normalize P; s_measure_gt (normalize G)])
                     (step (self w) P G) (stdout w)).
Proof.
  intros HP HG Hs.
  unfold update.
  unfold bind at 1, get at 1. rewrite (deref_Some _ _ _ HP).
  unfold bind at 1, get at 1. rewrite (deref_Some _ _ _ HG).
  unfold bind at 1. rewrite Hs. unfold assert_, ret.
  unfold bind at 1, astype at 1, bind at 1, get at 1, alloc at 1.
  rewrite (deref_Some _ _ _ HP).
  unfold bind at 1, astype at 1, bind at 1, get at 1, alloc at 1. simpl heap.
  rewrite (deref_app_old _ _ _ _ HG). simpl self; simpl stdout.
  unfold bind at 1, div255 at 1, bind at 1, get at 1, alloc at 1. simpl heap.
  simpl self; simpl stdout.
  unfold bind at 1, div255 at 1, bind at 1, get at 1, alloc at 1. simpl heap.
  simpl self; simpl stdout.
  repeat rewrite <- app_assoc. simpl app.
  rewrite !length_app. simpl length.
  rewrite deref_app0, (deref_app _ _ 1%nat).
  change (deref [P; G] 0%nat) with P.
  change (deref [P; G; amap (fun e => fdiv e (of_Z 255)) P] 1%nat) with G.
  rewrite (update_body_spec _ _ _ _ _ P G (normalize P) (normalize G)).
  - simpl heap. simpl self. simpl stdout. f_equal. f_equal.
    rewrite insert_app_r. reflexivity.
  - simpl heap. apply list_lookup_middle. reflexivity.
  - simpl heap. apply (lookup_app_plus _ _ 1%nat). reflexivity.
  - simpl heap. apply (lookup_app_plus _ _ 2%nat). reflexivity.
  - simpl heap. apply (lookup_app_plus _ _ 3%nat). reflexivity.
  - lia.
Qed.

(** C7.  When the two arrays differ in shape, [update] raises at its
    assertion and the whole state (object, arrays, output) is as before;
    when the shapes agree it returns normally and [cnt] has grown by
    exactly one. *)
Theorem update_shape_contract w (pred gt : loc) P G :
  heap w !! pred = Some P -> heap w !! gt = Some G ->
  (shape P <> shape G -> update pred gt w = (inl AssertionError, w)) /\
  (shape P = shape G ->
     exists w', update pred gt w = (inr tt, w') /\ cnt (self w') = cnt (self w) + 1).
Proof.
  intros HP HG. split; intros Hs.
  - apply (update_mismatch w pred gt P G HP HG).
    apply not_true_is_false. rewrite shape_eqb_eq. exact Hs.
  - apply shape_eqb_eq in Hs.
    eexists. split; [apply (update_spec w pred gt P G HP HG Hs)|].
    simpl. rewrite pr_loop_cnt. reflexivity.
Qed.

(** C10.  [update] leaves every array that existed before the call as
    it was, in particular the caller's [pred] and [gt]: it only appends
    four new arrays, and the in-place binarisation of
    [compute_s_measure] lands in the last of them. *)
Theorem update_preserves_arrays w (pred gt : loc) P G :
  heap w !! pred = Some P -> heap w !! gt = Some G -> shape P = shape G ->
  exists w', update pred gt w = (inr tt, w') /\
    heap w' = heap w ++ [P; G; normalize P; s_measure_gt (normalize G)] /\
    heap w' !! pred = Some P /\ heap w' !! gt = Some G /\
    (forall l a, heap w !! l = Some a -> heap w' !! l = Some a).
Proof.
  intros HP HG Hs. apply shape_eqb_eq in Hs.
  eexists. split; [apply (update_spec w pred gt P G HP HG Hs)|].
  simpl. split; [reflexivity|].
  split; [apply lookup_app_l_Some, HP|].
  split; [apply lookup_app_l_Some, HG|].
  intros l a Hl. apply lookup_app_l_Some, Hl.
Qed.

End Facts.

(** ** The sweep and the driver's loop, for any arithmetic *)

Section Loop.
Context {F : Type} {AF : Arith F}.

(** The loop [for i in range(n): l[i] = f(i, l[i])]. *)
Lemma alter_loop_lookup (f : nat -> F -> F) (n : nat) (l0 : list F) (i : nat) :
  fold_left (fun l th => alter (f th) th l) (seq 0 n) l0 !! i
    = if (i <? n)%nat then f i <$> (l0 !! i) else l0 !! i.
Proof.
  induction n as [|n IH].
  - reflexivity.
  - rewrite seq_S, fold_left_app. simpl.
    destruct (decide (i = n)) as [->|Hne].
    + rewrite list_lookup_alter_eq, IH.
      rewrite (proj2 (Nat.ltb_ge n n)) by lia.
      now rewrite (proj2 (Nat.ltb_lt n (S n))) by lia.
    + rewrite list_lookup_alter_ne by congruence. rewrite IH.
      destruct (i <? n)%nat eqn:E.
      * apply Nat.ltb_lt in E. now rewrite (proj2 (Nat.ltb_lt i (S n))) by lia.
      * apply Nat.ltb_ge in E. now rewrite (proj2 (Nat.ltb_ge i (S n))) by lia.
Qed.

Lemma alter_loop_imap (f : nat -> F -> F) (l0 : list F) :
  fold_left (fun l th => alter (f th) th l) (seq 0 (length l0)) l0 = imap f l0.
Proof.
  apply list_eq. intros i. rewrite alter_loop_lookup, list_lookup_imap.
  destruct (i <? length l0)%nat eqn:E; [reflexivity|].
  apply Nat.ltb_ge in E. now rewrite lookup_ge_None_2.
Qed.

Lemma pr_loop_fold (P G : ndarray F) ths m :
  fold_left (pr_step P G) ths m = pr_fold P G m ths.
Proof.
  revert m. induction ths as [|th ths IH]; intros m.
  - destruct m; reflexivity.
  - simpl. rewrite IH. unfold pr_fold. simpl. reflexivity.
Qed.

(** The sweep, on an object whose vectors have [thresholds] entries. *)
Lemma pr_loop_spec (P G : ndarray F) m :
  Z.to_nat (thresholds m) = length (precision m) ->
  Z.to_nat (thresholds m) = length (recall m) ->
  fold_left (pr_step P G) (seq 0 (Z.to_nat (thresholds m))) m =
  {| epsilon := epsilon m; beta := beta m; thresholds := thresholds m;
     mae := mae m; max_f := max_f m;
     precision := imap (fun th v => fadd v (precision_inc P G (epsilon m) (thresholds m) th))
                       (precision m);
     recall := imap (fun th v => fadd v (recall_inc P G (epsilon m) (thresholds m) th))
                    (recall m);
     q := q m; cnt := cnt m |}.
Proof.
  intros Hp Hr. rewrite pr_loop_fold. unfold pr_fold. f_equal.
  - rewrite Hp. apply alter_loop_imap.
  - rewrite Hr. apply alter_loop_imap.
Qed.

(** [step] on an object that satisfies the class invariant. *)
Lemma step_spec (m : Metric F) (P G : ndarray F) :
  metric_inv m ->
  step m P G =
  {| epsilon := epsilon init; beta := beta init; thresholds := 256;
     mae := py_add (mae m) (NpFloat (mae_value (normalize P) (normalize G)));
     max_f := PyInt 0;
     precision := imap (fun th v => fadd v (precision_inc P G (epsilon init) 256 th))
                       (precision m);
     recall := imap (fun th v => fadd v (recall_inc P G (epsilon init) 256 th))
                    (recall m);
     q := py_add (q m) (s_measure_value (normalize P) (normalize G));
     cnt := cnt m + 1 |}.
Proof.
  intros (He & Hb & Ht & Hf & Hp & Hr). unfold step.
  cbv zeta. rewrite pr_loop_spec.
  - unfold set_cnt, set_q, set_mae. simpl. rewrite He, Hb, Ht, Hf. reflexivity.
  - simpl. rewrite Ht, Hp. reflexivity.
  - simpl. rewrite Ht, Hr. reflexivity.
Qed.

Lemma step_inv (m : Metric F) (P G : ndarray F) : metric_inv m -> metric_inv (step m P G).
Proof.
  intros Hm. rewrite (step_spec m P G Hm).
  destruct Hm as (He & Hb & Ht & Hf & Hp & Hr).
  repeat split; simpl; try reflexivity; now rewrite length_imap.
Qed.

Lemma init_inv : metric_inv (@init F AF).
Proof. repeat split. Qed.

Lemma steps_inv m samples : metric_inv m -> metric_inv (steps m samples).
Proof.
  revert m. induction samples as [|[p g] l IH]; intros m Hm; simpl; [exact Hm|].
  apply IH, step_inv, Hm.
Qed.

(** The driver's loop on pairs of equal shapes runs to the end. *)
Lemma feed_spec samples (w : world F) :
  Forall same_shape samples ->
  exists h', feed samples w = (inr tt, mkWorld h' (steps (self w) samples) (stdout w)).
Proof.
  revert w. induction samples as [|[p g] l IH]; intros w Hs.
  - exists (heap w). destruct w; reflexivity.
  - inversion Hs as [|? ? Hpg Hl]; subst. simpl.
    unfold bind at 1, alloc at 1. unfold bind at 1, alloc at 1. simpl heap.
    unfold bind at 1.
    rewrite (update_spec _ _ _ p g).
    + destruct (IH (mkWorld ((heap w ++ [p]) ++ [g] ++ [p; g; normalize p; s_measure_gt (normalize g)]) (step (self w) p g) (stdout w)) Hl) as [h' Hh'].
      exists h'. simpl in *. rewrite <- Hh'. f_equal. f_equal. now rewrite <- app_assoc.
    + simpl. apply lookup_app_l_Some, list_lookup_middle. reflexivity.
    + simpl. apply list_lookup_middle. now rewrite length_app, Nat.add_comm.
    + apply shape_eqb_eq, Hpg.
Qed.
End Loop.

(** ** [print_result] and [argmax], for any arithmetic *)

Section PrintGeneric.
Context {F : Type} {AF : Arith F}.

Lemma py_truediv_nonzero (v : pyval F) (c : Z) :
  c <> 0 -> py_truediv v c = inr (NpFloat (fdiv (to_F v) (of_Z c))).
Proof.
  intros Hc. destruct v; simpl; [|reflexivity].
  now rewrite (proj2 (Z.eqb_neq c 0) Hc).
Qed.

Lemma print_result_run (w : world F) :
  cnt (self w) <> 0 ->
  print_result w = (inr tt, mkWorld (heap w) (self w) (stdout w ++ code_lines (self w))).
Proof.
  intros Hc. unfold print_result, bind, get_self, lift_exn, print.
  rewrite !(py_truediv_nonzero _ _ Hc). simpl.
  rewrite <- !app_assoc. reflexivity.
Qed.

Lemma argmax_from_bound (mp : F) (idx i : nat) (l : list F) :
  (idx < i)%nat -> (argmax_from mp idx i l < i + length l)%nat.
Proof.
  revert mp idx i. induction l as [|v l IH]; intros mp idx i Hi; simpl; [lia|].
  destruct (negb (fleb v mp)).
  - destruct (fisnan v); [lia|]. specialize (IH v i (S i)). lia.
  - specialize (IH mp idx (S i)). lia.
Qed.

Lemma argmax_bound (l : list F) : l <> [] -> (argmax l < length l)%nat.
Proof.
  destruct l as [|v l]; [congruence|]. intros _. simpl.
  destruct (fisnan v); [lia|]. pose proof (argmax_from_bound v 0 1 l). lia.
Qed.
End PrintGeneric.

(** ** Arrays *)

Section ArrayFacts.
Context {A B C : Type}.

Lemma all_entries_flat (R : A -> Prop) (a : ndarray A) :
  all_entries R a <-> Forall R (flat a).
Proof.
  unfold all_entries, flat. induction (elems a) as [|r rs IH]; simpl.
  - split; constructor.
  - rewrite Forall_cons, Forall_app, IH. reflexivity.
Qed.
End ArrayFacts.

Lemma Forall_zip_with_2 {A B C} (R : A -> Prop) (S : B -> Prop) (T : C -> Prop)
    (f : A -> B -> C) (l : list A) (k : list B) :
  (forall x y, R x -> S y -> T (f x y)) -> Forall R l -> Forall S k ->
  Forall T (zip_with f l k).
Proof.
  intros Hf Hl. revert k. induction Hl as [|x l Hx Hl IH]; intros k Hk; [constructor|].
  destruct Hk as [|y k Hy Hk]; simpl; constructor; auto.
Qed.

Section ArrayFacts2.
Context {A B C : Type}.
Lemma all_entries_amap (R : A -> Prop) (S : B -> Prop) (f : A -> B) (a : ndarray A) :
  (forall x, R x -> S (f x)) -> all_entries R a -> all_entries S (amap f a).
Proof.
  intros Hf. unfold all_entries, amap. simpl. intros H.
  apply Forall_fmap. eapply Forall_impl; [exact H|]. intros r Hr. simpl.
  apply Forall_fmap. eapply Forall_impl; [exact Hr|]. exact Hf.
Qed.

Lemma all_entries_azip (R : A -> Prop) (S : B -> Prop) (T : C -> Prop)
    (f : A -> B -> C) (a : ndarray A) (b : ndarray B) :
  (forall x y, R x -> S y -> T (f x y)) ->
  all_entries R a -> all_entries S b -> all_entries T (azip f a b).
Proof.
  intros Hf Ha Hb. unfold all_entries, azip. simpl.
  apply (Forall_zip_with_2 (Forall R) (Forall S) (Forall T)); try assumption.
  intros r s Hr Hs. now apply (Forall_zip_with_2 R S T).
Qed.
End ArrayFacts2.

Section WF.
Context {F : Type} {AF : Arith F}.

Lemma imap_as_zip (f : nat -> F) (l : list F) :
  imap (fun i e => fadd e (f i)) l = zip_with fadd l (map f (seq 0 (length l))).
Proof.
  revert f. induction l as [|x l IH]; intros f; [reflexivity|].
  cbn [imap length seq map zip_with]. f_equal.
  rewrite <- seq_shift, map_map. apply (IH (fun i => f (S i))).
Qed.

Lemma wf_arrayb_flat (a : ndarray F) : wf_arrayb a = true -> length (flat a) = asize a.
Proof.
  unfold wf_arrayb, flat, asize. destruct a as [[H W] rows]. simpl.
  rewrite andb_true_iff, Nat.eqb_eq, forallb_forall. intros [<- Hrows].
  induction rows as [|r rows IH]; simpl; [reflexivity|].
  rewrite length_app, IH.
  - f_equal. apply Nat.eqb_eq, Hrows. now left.
  - intros x Hx. apply Hrows. now right.
Qed.

Lemma valid_image_inv (a : ndarray F) :
  valid_image a = true ->
  length (flat a) = asize a /\ (0 < asize a)%nat /\
  Forall (fun v => valid_pixel v = true) (flat a).
Proof.
  unfold valid_image. rewrite !andb_true_iff. intros [[Hwf Hn] Hpx].
  split; [now apply wf_arrayb_flat|]. split; [now apply Nat.ltb_lt|].
  apply Forall_forall. intros v Hv. rewrite forallb_forall in Hpx. apply Hpx.
  now apply list_elem_of_In.
Qed.
End WF.

(** ** The centroid, for any arithmetic *)

Section Centroid.
Context {F : Type} {AF : Arith F}.









End Centroid.

(** ** The order law in the IEEE instance *)

Lemma SFcompare_Lt_Gt x y : SFcompare y x = Some Lt -> SFcompare x y = Some Gt.
Proof.
  destruct x as [sx|sx| |sx mx ex], y as [sy|sy| |sy my ey]; simpl;
    try discriminate; try (destruct sx; discriminate || reflexivity);
    try (destruct sy; discriminate || reflexivity);
    try (destruct sx, sy; discriminate || reflexivity).
  destruct sx, sy; try discriminate; try reflexivity;
    rewrite (Z.compare_antisym ey ex);
    change (Pos.compare_cont Eq mx my) with (Pos.compare mx my);
    change (Pos.compare_cont Eq my mx) with (Pos.compare my mx);
    rewrite (Pos.compare_antisym my mx);
    destruct (ey ?= ex); simpl; try discriminate; try reflexivity;
    destruct (my ?= mx)%positive; simpl; try discriminate; reflexivity.
Qed.

#[export] Instance ieee_order prec emax : @ArithOrder spec_float (IEEE.ieee_arith prec emax).
Proof.
  constructor. intros x y. simpl. unfold SFltb, SFleb.
  destruct (SFcompare y x) as [[| |]|] eqn:E; try discriminate.
  intros _. now rewrite (SFcompare_Lt_Gt _ _ E).
Qed.

(** ** The masks of the sweep count the pixels above the threshold *)

Section Counting.
Context {F : Type} {AF : Arith F} {AO : ArithOrder F}.

Lemma azip_amap {A B C D : Type} (f : B -> C -> D) (g : A -> B) (k : A -> C) (x : ndarray A) :
  azip f (amap g x) (amap k x) = amap (fun v => f (g v) (k v)) x.
Proof.
  unfold azip, amap. simpl. f_equal.
  induction (elems x) as [|r rs IH]; simpl; [reflexivity|]. f_equal; [|exact IH].
  induction r as [|v r IHr]; simpl; [reflexivity|]. now rewrite IHr.
Qed.

Lemma flat_amap {A B : Type} (f : A -> B) (x : ndarray A) :
  flat (amap f x) = map f (flat x).
Proof.
  unfold flat, amap. simpl.
  induction (elems x) as [|r rs IH]; simpl; [reflexivity|].
  now rewrite map_app, IH.
Qed.

Lemma binarize_amap (x : ndarray F) (t : F) :
  binarize x t = amap (fun v => if fgtb v t then 1 else 0) x.
Proof.
  unfold binarize, mask_assign.
  rewrite (azip_amap _ (fun _ => 0) (fun v => fgtb v t) x).
  rewrite (azip_amap (fun (x0 : Z) (m : bool) => if m then 0 else x0)
             (fun v => if fgtb v t then 1 else 0) (fun v => fleb v t) x).
  unfold amap. f_equal. apply map_ext. intros r. apply map_ext. intros v.
  unfold fgtb. destruct (fltb t v) eqn:E.
  - now rewrite (fltb_fleb _ _ E).
  - now destruct (fleb v t).
Qed.

Lemma fold_add_shift (l : list Z) (a : Z) : fold_left Z.add l a = a + fold_left Z.add l 0.
Proof.
  revert a. induction l as [|x l IH]; intros a; simpl; [lia|].
  rewrite (IH (a + x)), (IH (0 + x)). lia.
Qed.

Lemma sum_indicator (p : F -> bool) (l : list F) :
  fold_left Z.add (map (fun v => if p v then 1 else 0) l) 0
    = Z.of_nat (length (List.filter p l)).
Proof.
  induction l as [|v l IH]; simpl; [reflexivity|].
  rewrite fold_add_shift, IH.
  destruct (p v); simpl length; lia.
Qed.

Lemma isum_binarize (x : ndarray F) (t : F) : isum (binarize x t) = count_above x t.
Proof.
  unfold isum, count_above. rewrite binarize_amap, flat_amap. apply sum_indicator.
Qed.

(** C3 (as the code has it).  [update] runs the sweep on the arrays as
    they are passed in (values 0..255, not normalised): at threshold
    [th] a prediction pixel is positive when its value exceeds [th], and a
    ground-truth pixel when its value, on the 0..255 scale, exceeds
    [th / thresholds]. *)
Theorem sweep_compares_raw_gt (w : world F) (pred gt : loc) (P G : ndarray F) :
  heap w !! pred = Some P -> heap w !! gt = Some G -> shape P = shape G ->
  exists w', update pred gt w = (inr tt, w') /\
    self w' = step (self w) P G /\
    forall th : nat,
      isum (pred_mask P th) = count_above P (of_Z (Z.of_nat th)) /\
      isum (gt_mask G (thresholds (self w)) th)
        = gt_positive_raw G (thresholds (self w)) th.
Proof.
  intros HP HG Hs. apply shape_eqb_eq in Hs.
  eexists. split; [apply (update_spec w pred gt P G HP HG Hs)|].
  split; [reflexivity|]. intros th. split; apply isum_binarize.
Qed.
End Counting.

(** ** Concrete runs *)

Lemma Q_eq_dec_leibniz (a b : Q) : {a = b} + {a <> b}.
Proof. decide equality; [apply Pos.eq_dec | apply Z.eq_dec]. Qed.

(** Evaluate both sides; canonicity proofs of equal rationals are equal. *)
Ltac run_exact :=
  vm_compute; repeat f_equal; apply (Eqdep_dec.UIP_dec Q_eq_dec_leibniz).

(** C8.  After one [update] with [pred = gt =] the 4x4 array of 255,
    [print_result] prints max F-measure 1, precision 1, recall 1, MAE 0
    and S-measure 1 (the maximum is found at threshold 0): in binary64, in
    binary32 and in exact arithmetic. *)
Theorem all_255_reports_perfect :
  all_255_report IEEE.b64 /\ all_255_report IEEE.b32 /\
  forall sq, all_255_report (Exact.exact_arith sq).
Proof.
  split; [split; vm_compute; reflexivity|].
  split; [split; vm_compute; reflexivity|].
  intros sq. split; [run_exact | vm_compute; reflexivity].
Qed.

(** C2 (as the code has it).  After one [update] with [pred] all 255 and
    [gt] all zeros (4x4): the S-measure added is 0, the MAE added is 1,
    and at threshold 0 the precision added is [eps / (16 + eps)], below
    [1e-5], while the recall added is [eps / eps = 1]. *)
Theorem white_on_empty_contributions :
  white_on_empty_sums IEEE.b64 /\ white_on_empty_sums IEEE.b32 /\
  forall sq, white_on_empty_sums (Exact.exact_arith sq).
Proof.
  split; [repeat split; vm_compute; reflexivity|].
  split; [repeat split; vm_compute; reflexivity|].
  intros sq. repeat split; try (vm_compute; reflexivity); run_exact.
Qed.

(** C2, counterexample: in that run the recall sum at threshold 0 is 1,
    not a value near 0. *)
Lemma white_on_empty_recall_not_small :
  ~ recall0_near_zero IEEE.b64 (white_on_empty IEEE.b64).
Proof.
  intros [r [Hr Hle]]. vm_compute in Hr. injection Hr as <-.
  vm_compute in Hle. discriminate.
Qed.

(** C4 (as the code has it).  On a new object ([cnt = 0]) [print_result]
    prints three lines whose value is NaN (0/0 on numpy floats), and then
    raises [ZeroDivisionError] at [self.mae / self.cnt], a division of
    two Python ints: MAE and S-measure are not printed. *)
Theorem print_result_on_new_object :
  (forall h out, empty_report IEEE.b64 h out) /\
  (forall sq h out, empty_report (Exact.exact_arith sq) h out).
Proof.
  split; intros; (split; [|vm_compute; reflexivity]);
    cbv -[app]; rewrite <- !app_assoc; reflexivity.
Qed.

(** C4, counterexample: the call on a new object does print values
    obtained from a zero denominator before it raises. *)
Lemma new_object_output_not_empty :
  ~ silent_on_new_object IEEE.b64.
Proof. vm_compute. discriminate. Qed.

(** C1, counterexample (binary64): after three updates with the 1x1 pair
    [pred = gt = 255] the printed max F-measure is
    [(1.3 * 9 / 3.9) / 3 = 1.0000000000000002], the reference value
    [F(3/3, 3/3)] is 1. *)
Lemma thrice_perfect_report_differs :
  ~ report_as_reference IEEE.b64 (thrice_perfect IEEE.b64).
Proof. vm_compute. discriminate. Qed.

Example thrice_perfect_printed :
  stdout (snd (@print_result _ IEEE.b64 (thrice_perfect IEEE.b64))) !! 0%nat
    = Some ("Max F-measure:"%string, NpFloat (S754_finite false 4503599627370497 (-52))) /\
  r_max_f (@summarize_ref _ IEEE.b64 (self (thrice_perfect IEEE.b64)))
    = S754_finite false 4503599627370496 (-52).
Proof. split; vm_compute; reflexivity. Qed.

(** C5, counterexample (binary64): for these three pairs the precision
    sum at threshold 0 is [(1 + p) + p] when fed in sequence and
    [1 + (p + p)] when merged, with [p = eps / (2 + eps)]; the two
    differ in the last place. *)
Lemma merge_differs_from_sequence :
  ~ merge_as_sequence IEEE.b64 (first_half IEEE.b64) (second_half IEEE.b64).
Proof.
  intros H. apply (f_equal (fun m => precision m !! 0%nat)) in H.
  vm_compute in H. discriminate.
Qed.

Example merge_differs_values :
  precision (self (@after_feed _ IEEE.b64
                     (first_half IEEE.b64 ++ second_half IEEE.b64))) !! 0%nat
    = Some (S754_finite false 4504049964816360 (-52)) /\
  precision (@merge _ IEEE.b64
               (self (@after_feed _ IEEE.b64 (first_half IEEE.b64)))
               (self (@after_feed _ IEEE.b64 (second_half IEEE.b64)))) !! 0%nat
    = Some (S754_finite false 4504049964816361 (-52)).
Proof. split; vm_compute; reflexivity. Qed.

(** C3, counterexample: for a ground truth with the single value 1 and
    threshold 2, the sweep counts the pixel as positive ([1 > 2/256]),
    while its normalised value [1/255] does not exceed [2/256]. *)
Lemma gt_mask_is_not_normalized :
  ~ gt_counted_normalized IEEE.b64 (dim_gt IEEE.b64) 2.
Proof. vm_compute. discriminate. Qed.

(** ** Exact arithmetic *)

Section ExactProofs.
Variable sq : Qc -> Qc.
Let AFx : Arith Exact.xq := Exact.exact_arith sq.
#[local] Existing Instance AFx.
Import Exact.
Implicit Types (x y : xq) (m : Metric xq).

Lemma xlt_iff (a b : Qc) : fltb (XFin a) (XFin b) = true <-> (a < b)%Qc.
Proof. simpl. rewrite Qclt_alt. destruct (a ?= b)%Qc; simpl; split; congruence. Qed.

Lemma xle_iff (a b : Qc) : fleb (XFin a) (XFin b) = true <-> (a <= b)%Qc.
Proof. simpl. rewrite Qcle_alt. destruct (a ?= b)%Qc; simpl; split; congruence. Qed.

Lemma xeq_iff (a b : Qc) : feqb (XFin a) (XFin b) = true <-> a = b.
Proof. simpl. rewrite Qceq_alt. destruct (a ?= b)%Qc; simpl; split; congruence. Qed.

#[local] Instance exact_order : ArithOrder xq.
Proof.
  constructor. intros [|a] [|b]; try (simpl; discriminate).
  intros Hlt. apply xlt_iff in Hlt. apply not_true_is_false.
  rewrite xle_iff. apply Qclt_not_le, Hlt.
Qed.

(** *** Sums commute and associate *)

Lemma xadd_comm x y : @fadd _ AFx x y = fadd y x.
Proof. destruct x, y; simpl; try reflexivity. f_equal. apply Qcplus_comm. Qed.

Lemma xadd_assoc (x y z : xq) : @fadd _ AFx (fadd x y) z = fadd x (fadd y z).
Proof. destruct x, y, z; simpl; try reflexivity. f_equal. symmetry. apply Qcplus_assoc. Qed.

Lemma xadd_0_r x : @fadd _ AFx x (of_Z 0) = x.
Proof. destruct x; simpl; [reflexivity|]. f_equal. apply Qcplus_0_r. Qed.

Lemma xadd_0_l x : @fadd _ AFx (of_Z 0) x = x.
Proof. rewrite xadd_comm. apply xadd_0_r. Qed.

Lemma x_of_Z_add (a b : Z) : @of_Z _ AFx (a + b) = fadd (of_Z a) (of_Z b).
Proof. simpl. f_equal. apply Z2Qc_inj_add. Qed.

Lemma to_F_py_add (u v : pyval xq) : @to_F _ AFx (py_add u v) = fadd (to_F u) (to_F v).
Proof. destruct u, v; simpl; try reflexivity. f_equal. apply Z2Qc_inj_add. Qed.

Lemma py_add_comm (u v : pyval xq) : @py_add _ AFx u v = py_add v u.
Proof.
  destruct u, v; unfold py_add; try (f_equal; apply xadd_comm).
  f_equal. lia.
Qed.

Lemma py_add_assoc (u v t : pyval xq) : @py_add _ AFx (py_add u v) t = py_add u (py_add v t).
Proof.
  destruct u as [a|a], v as [b|b], t as [c|c]; unfold py_add, to_F;
    try (f_equal; lia);
    rewrite ?x_of_Z_add, ?xadd_assoc; reflexivity.
Qed.

Lemma py_add_0_r (u : pyval xq) : @py_add _ AFx u (PyInt 0) = u.
Proof.
  destruct u; unfold py_add, to_F; [f_equal; lia|]. f_equal. apply xadd_0_r.
Qed.

Lemma zip_add_comm (l k : list xq) : zip_with (@fadd _ AFx) l k = zip_with fadd k l.
Proof.
  revert k. induction l as [|a l IH]; intros [|b k]; cbn [zip_with]; try reflexivity.
  now rewrite xadd_comm, IH.
Qed.

Lemma zip_add_assoc (l k j : list xq) :
  zip_with (@fadd _ AFx) (zip_with fadd l k) j = zip_with fadd l (zip_with fadd k j).
Proof.
  revert k j. induction l as [|a l IH]; intros [|b k] [|c j]; cbn [zip_with]; try reflexivity.
  now rewrite xadd_assoc, IH.
Qed.

Lemma zip_add_zeros (l : list xq) (n : nat) :
  length l = n -> zip_with (@fadd _ AFx) l (replicate n (of_Z 0)) = l.
Proof.
  intros <-. induction l as [|a l IH]; cbn [zip_with length replicate]; [reflexivity|].
  now rewrite xadd_0_r, IH.
Qed.

Lemma merge_comm m1 m2 : @merge _ AFx m1 m2 = merge m2 m1.
Proof.
  unfold merge. f_equal; try apply py_add_comm; try apply zip_add_comm. lia.
Qed.

Lemma merge_assoc m1 m2 m3 : @merge _ AFx (merge m1 m2) m3 = merge m1 (merge m2 m3).
Proof.
  unfold merge. simpl. f_equal; try apply py_add_assoc; try apply zip_add_assoc. lia.
Qed.

Lemma merge_init_r m : metric_inv m -> @merge _ AFx m init = m.
Proof.
  intros (He & Hb & Ht & Hf & Hp & Hr). destruct m as [e b t ma mf p r qq c].
  simpl in *. subst. unfold merge. simpl. f_equal; try apply py_add_0_r.
  - apply (zip_add_zeros p 256%nat Hp).
  - apply (zip_add_zeros r 256%nat Hr).
  - lia.
Qed.

Lemma imap_zip_add (f : nat -> xq) (l k : list xq) :
  imap (fun i e => @fadd _ AFx e (f i)) (zip_with fadd l k)
    = zip_with fadd l (imap (fun i e => fadd e (f i)) k).
Proof.
  revert f k. induction l as [|a l IH]; intros f [|b k]; cbn [zip_with imap]; try reflexivity.
  rewrite xadd_assoc. f_equal. apply (IH (fun i => f (S i))).
Qed.

Lemma merge_inv m1 m2 :
  metric_inv m1 -> metric_inv m2 -> metric_inv (@merge _ AFx m1 m2).
Proof.
  intros (_ & _ & _ & _ & Hp1 & Hr1) (_ & _ & _ & _ & Hp2 & Hr2).
  repeat split; simpl; rewrite length_zip_with; lia.
Qed.

Lemma step_merge m1 m2 (P G : ndarray xq) :
  metric_inv m1 -> metric_inv m2 ->
  @step _ AFx (merge m1 m2) P G = merge m1 (step m2 P G).
Proof.
  intros H1 H2.
  rewrite (step_spec _ P G (merge_inv _ _ H1 H2)), (step_spec _ P G H2).
  unfold merge. simpl. f_equal; try apply py_add_assoc; try apply imap_zip_add. lia.
Qed.

Lemma steps_snoc m l pg : @steps _ AFx m (l ++ [pg]) = step (steps m l) (fst pg) (snd pg).
Proof. unfold steps. now rewrite fold_left_app. Qed.

Lemma steps_merge m l : metric_inv m -> @steps _ AFx m l = merge m (steps init l).
Proof.
  intros Hm. induction l as [|pg l IH] using rev_ind.
  - simpl. symmetry. apply merge_init_r, Hm.
  - rewrite !steps_snoc, IH. apply step_merge; [exact Hm|].
    apply steps_inv, init_inv.
Qed.

Lemma after_feed_steps l : Forall same_shape l -> self (@after_feed _ AFx l) = steps init l.
Proof.
  intros Hl. unfold after_feed. destruct (feed_spec l fresh Hl) as [h' ->]. reflexivity.
Qed.

(** C5 (in exact arithmetic).  For two sequences of pairs of equal
    shapes, the object after the concatenated sequence equals the merge
    of the objects after each half, and [merge] is commutative and
    associative.  In binary64 the sums agree up to rounding only. *)
Theorem merge_equals_sequence (l1 l2 : list (ndarray xq * ndarray xq)) :
  Forall same_shape l1 -> Forall same_shape l2 ->
  merge_as_sequence AFx l1 l2 /\
  (forall m1 m2, @merge _ AFx m1 m2 = merge m2 m1) /\
  (forall m1 m2 m3, @merge _ AFx (merge m1 m2) m3 = merge m1 (merge m2 m3)).
Proof.
  intros H1 H2. split; [|split; [apply merge_comm | apply merge_assoc]].
  unfold merge_as_sequence.
  rewrite !after_feed_steps by (try apply Forall_app; auto).
  unfold steps at 1. rewrite fold_left_app. fold (steps init l1).
  apply (steps_merge (steps init l1) l2), steps_inv, init_inv.
Qed.

(** *** The report *)

Local Open Scope Qc_scope.

Lemma Fm_scale (b p r : xq) (c : Qc) :
  c <> 0 ->
  fdiv (Fm b p r) (XFin c) = Fm b (fdiv p (XFin c)) (fdiv r (XFin c)).
Proof.
  intros Hc. destruct b as [|b], p as [|p], r as [|r]; unfold Fm; simpl;
    try reflexivity;
    try (destruct (Qc_eq_dec c 0); [contradiction|]; simpl; reflexivity).
  destruct (Qc_eq_dec c 0) as [|_]; [contradiction|]. simpl.
  destruct (Qc_eq_dec (b * p + r) 0) as [E|E]; simpl.
  - destruct (Qc_eq_dec (b * (p / c) + r / c) 0) as [E'|E']; [reflexivity|].
    exfalso. apply E'. replace (b * (p / c) + r / c)%Qc with ((b * p + r) / c)%Qc
      by (field; exact Hc).
    rewrite E. field. exact Hc.
  - destruct (Qc_eq_dec c 0) as [|_]; [contradiction|].
    destruct (Qc_eq_dec (b * (p / c) + r / c) 0) as [E'|E'].
    + exfalso. apply E. replace (b * p + r)%Qc with ((b * (p / c) + r / c) * c)%Qc
        by (field; exact Hc).
      rewrite E'. ring.
    + f_equal. field. split; assumption.
Qed.

Lemma xdiv_fin (a c : Qc) : c <> 0 -> fdiv (XFin a) (XFin c) = XFin (a / c).
Proof. intros Hc. simpl. destruct (Qc_eq_dec c 0); [contradiction|reflexivity]. Qed.

Lemma fleb_scale x y (c : Qc) :
  0 < c -> fleb (fdiv x (XFin c)) (fdiv y (XFin c)) = fleb x y.
Proof.
  intros Hc. assert (Hc0 : c <> 0) by (intros ->; now apply (Qclt_not_eq 0 0)).
  destruct x as [|a], y as [|b]; try reflexivity;
    rewrite ?xdiv_fin by exact Hc0; try reflexivity.
  apply eq_iff_eq_true. rewrite !xle_iff. unfold Qcdiv.
  symmetry. apply Qcmult_le_mono_pos_r. apply Qcinv_pos, Hc.
Qed.

Lemma fisnan_scale x (c : Qc) : c <> 0 -> fisnan (fdiv x (XFin c)) = fisnan x.
Proof. intros Hc. destruct x; [reflexivity|]. now rewrite xdiv_fin. Qed.

Lemma argmax_from_scale (c : Qc) (mp : xq) (idx i : nat) (l : list xq) :
  0 < c ->
  argmax_from (fdiv mp (XFin c)) idx i (map (fun e => fdiv e (XFin c)) l)
    = argmax_from mp idx i l.
Proof.
  intros Hc. assert (Hc0 : c <> 0) by (intros ->; now apply (Qclt_not_eq 0 0)).
  revert mp idx i. induction l as [|e l IH]; intros mp idx i; [reflexivity|].
  cbn [map argmax_from]. rewrite fleb_scale, fisnan_scale, !IH by assumption.
  reflexivity.
Qed.

Lemma argmax_scale (c : Qc) (l : list xq) :
  0 < c -> argmax (map (fun e => fdiv e (XFin c)) l) = argmax l.
Proof.
  intros Hc. assert (Hc0 : c <> 0) by (intros ->; now apply (Qclt_not_eq 0 0)).
  destruct l as [|e l]; [reflexivity|]. cbn [map argmax].
  now rewrite fisnan_scale, argmax_from_scale.
Qed.

Lemma item_f_measure m (i : nat) :
  (i < length (precision m))%nat -> (i < length (recall m))%nat ->
  item (f_measure m) i = Fm (beta m) (item (precision m) i) (item (recall m) i).
Proof.
  intros Hp Hr. unfold item, f_measure.
  destruct (lookup_lt_is_Some_2 _ _ Hp) as [p Ep].
  destruct (lookup_lt_is_Some_2 _ _ Hr) as [r Er].
  rewrite lookup_zip_with, Ep, Er. reflexivity.
Qed.

Lemma F_th_scale m (i : nat) :
  metric_inv m -> (1 <= cnt m)%Z -> (i < 256)%nat ->
  F_th m i = fdiv (item (f_measure m) i) (of_Z (cnt m)).
Proof.
  intros (He & Hb & Ht & Hf & Hp & Hr) Hc Hi.
  rewrite item_f_measure by lia. rewrite Hb.
  change (of_Z (cnt m)) with (XFin (Qc_of_Z (cnt m))).
  rewrite Fm_scale; [reflexivity|].
  intros E. rewrite <- Z2Qc_inj_0 in E. apply Z2Qc_inj in E. lia.
Qed.

Lemma F_th_list m :
  metric_inv m -> (1 <= cnt m)%Z ->
  map (F_th m) (seq 0 256) = map (fun e => fdiv e (of_Z (cnt m))) (f_measure m).
Proof.
  intros Hm Hc. apply list_eq. intros i.
  rewrite !list_lookup_fmap.
  destruct Hm as (He & Hb & Ht & Hf & Hp & Hr).
  destruct (decide (i < 256)%nat) as [Hi|Hi].
  - rewrite lookup_seq_lt by exact Hi. cbn [fmap option_fmap option_map].
    change (0 + i)%nat with i.
    rewrite (F_th_scale m i) by (repeat split; assumption || lia).
    unfold item.
    assert (Hl : (i < length (f_measure m))%nat).
    { unfold f_measure. rewrite length_zip_with. lia. }
    destruct (lookup_lt_is_Some_2 _ _ Hl) as [f Ef]. rewrite Ef. reflexivity.
  - rewrite lookup_seq_ge by lia.
    rewrite lookup_ge_None_2; [reflexivity|].
    unfold f_measure. rewrite length_zip_with. lia.
Qed.

Lemma xle_refl (a : Qc) : fleb (XFin a) (XFin a) = true.
Proof. apply xle_iff, Qcle_refl. Qed.

(** On a list without NaN, [argmax_from] ends on a greatest element. *)
Lemma argmax_from_max (l pre : list xq) (mp : xq) (idx : nat) :
  Forall (fun e => fisnan e = false) l -> fisnan mp = false ->
  pre !! idx = Some mp ->
  (forall e, e ∈ pre -> fleb e mp = true) ->
  exists mx, (pre ++ l) !! argmax_from mp idx (length pre) l = Some mx /\
             forall e, e ∈ pre ++ l -> fleb e mx = true.
Proof.
  revert pre mp idx. induction l as [|v l IH]; intros pre mp idx Hl Hmp Hidx Hpre.
  - exists mp. rewrite app_nil_r. split; [exact Hidx|exact Hpre].
  - inversion Hl as [|? ? Hv Hl']; subst. cbn [argmax_from]. rewrite Hv.
    destruct v as [|b]; [discriminate|]. destruct mp as [|a]; [discriminate|].
    replace (pre ++ XFin b :: l) with ((pre ++ [XFin b]) ++ l)
      by (now rewrite <- app_assoc).
    replace (S (length pre)) with (length (pre ++ [XFin b]))
      by (rewrite length_app; simpl; lia).
    destruct (fleb (XFin b) (XFin a)) eqn:E; cbn [negb].
    + apply IH; try assumption.
      * apply lookup_app_l_Some, Hidx.
      * intros e He. apply elem_of_app in He as [He|He]; [now apply Hpre|].
        apply list_elem_of_singleton in He. now subst.
    + apply IH; try assumption.
      * apply list_lookup_middle. reflexivity.
      * intros e He. apply elem_of_app in He as [He|He].
        -- specialize (Hpre e He). destruct e as [|c]; [discriminate|].
           apply xle_iff. apply xle_iff in Hpre.
           apply Qcle_trans with a; [exact Hpre|].
           apply Qclt_le_weak, Qcnot_le_lt. intros Hle.
           apply xle_iff in Hle. congruence.
        -- apply list_elem_of_singleton in He. subst. apply xle_refl.
Qed.

Lemma argmax_max (l : list xq) :
  Forall (fun e => fisnan e = false) l -> l <> [] ->
  exists mx, l !! argmax l = Some mx /\ forall e, e ∈ l -> fleb e mx = true.
Proof.
  intros Hl Hne. destruct l as [|v l]; [congruence|].
  inversion Hl as [|? ? Hv Hl']; subst. cbn [argmax]. rewrite Hv.
  apply (argmax_from_max l [v] v 0 Hl' Hv); [reflexivity|].
  intros e He. apply list_elem_of_singleton in He. subst.
  destruct v; [discriminate|apply xle_refl].
Qed.

Lemma F_th_list_nonempty m : map (F_th m) (seq 0 256) <> [].
Proof.
  intros E. apply (f_equal length) in E. rewrite length_map, length_seq in E.
  discriminate E.
Qed.

Lemma reference_index_maximal m :
  Forall (fun e => fisnan e = false) (map (F_th m) (seq 0 256)) ->
  forall th : nat, (th < 256)%nat ->
    fleb (F_th m th) (r_max_f (summarize_ref m)) = true.
Proof.
  intros Hfin th Hth.
  pose proof (argmax_max (map (F_th m) (seq 0 256)) Hfin (F_th_list_nonempty m)) as H.
  destruct H as [mx H]. destruct H as [Hmx Hall].
  pose proof (argmax_bound _ (F_th_list_nonempty m)) as Hb.
  rewrite length_map, length_seq in Hb.
  rewrite list_lookup_fmap in Hmx. 
  rewrite lookup_seq_lt in Hmx by exact Hb.
  apply (inj Some) in Hmx. subst mx.
  apply Hall.
  apply list_elem_of_lookup. exists th.
  rewrite list_lookup_fmap, lookup_seq_lt by exact Hth. 
  reflexivity.
Qed.

(** C1 (in exact arithmetic).  For an object with [cnt >= 1],
    [print_result] prints exactly the reference report of section 4.5:
    the F-measure of the averaged precision and recall at the index
    found, those averages, [mae / cnt] and [q / cnt]; the index found on
    the raw sums is the reference index, and (when no F is undefined)
    its F is the greatest.  In binary64 the printed F can differ from
    the reference by rounding. *)
Theorem report_equals_reference (w : world xq) :
  (1 <= cnt (self w))%Z -> metric_inv (self w) ->
  print_result w =
    (inr tt, mkWorld (heap w) (self w)
               (stdout w ++ report_lines (summarize_ref (self w)))) /\
  argmax (f_measure (self w)) = r_index (summarize_ref (self w)) /\
  (Forall (fun e => fisnan e = false) (map (F_th (self w)) (seq 0 256)) ->
   forall th : nat, (th < 256)%nat ->
     fleb (F_th (self w) th) (r_max_f (summarize_ref (self w))) = true).
Proof.
  intros Hc Hm. rewrite print_result_run by lia.
  split; [|split; [|apply reference_index_maximal]]; set (m := self w) in *.
  all: assert (Hpos : 0 < Qc_of_Z (cnt m))
    by (rewrite <- Z2Qc_inj_0; apply (Z2Qc_inj_lt 0 (cnt m)); lia).
  all: assert (Hidx : argmax (map (F_th m) (seq 0 256)) = argmax (f_measure m))
    by (rewrite F_th_list by assumption; apply (argmax_scale _ _ Hpos)).
  2: symmetry; exact Hidx.
  assert (Hlt : (argmax (f_measure m) < 256)%nat).
  { destruct Hm as (He & Hb & Ht & Hf & Hp & Hr).
    assert (Hl : length (f_measure m) = 256%nat).
    { unfold f_measure. rewrite length_zip_with. lia. }
    rewrite <- Hl. apply argmax_bound. intros E. rewrite E in Hl. discriminate. }
  do 3 f_equal.
  unfold code_lines, report_lines, summarize_ref.
  cbn [r_max_f r_precision r_recall r_mae r_s_measure].
  rewrite Hidx. rewrite (F_th_scale m _ Hm Hc Hlt). reflexivity.
Qed.

(** *** Non-negative contributions *)

Lemma Qc_of_Z_0 : Qc_of_Z 0 = 0.
Proof. apply Z2Qc_inj_0. Qed.

Lemma Qc_of_Z_nonneg (n : Z) : (0 <= n)%Z -> 0 <= Qc_of_Z n.
Proof. intros Hn. rewrite <- Qc_of_Z_0. apply (proj1 (Z2Qc_inj_le 0 n)), Hn. Qed.

Lemma Qc_of_Z_pos (n : Z) : (0 < n)%Z -> 0 < Qc_of_Z n.
Proof. intros Hn. rewrite <- Qc_of_Z_0. apply (proj1 (Z2Qc_inj_lt 0 n)), Hn. Qed.

Lemma Qc_pos_neq a : 0 < a -> a <> 0.
Proof. intros Ha ->. now apply (Qclt_not_eq 0 0). Qed.

Lemma Qcdiv_nonneg a c : 0 <= a -> 0 < c -> 0 <= a / c.
Proof.
  intros Ha Hc. unfold Qcdiv. apply Qcmult_nonneg_nonneg; [exact Ha|].
  apply Qclt_le_weak, Qcinv_pos, Hc.
Qed.

Lemma Qcdiv_le_1 a c : a <= c -> 0 < c -> a / c <= 1.
Proof.
  intros Ha Hc. unfold Qcdiv.
  rewrite <- (Qcmult_inv_r c) by (apply Qc_pos_neq, Hc).
  apply Qcmult_le_mono_nonneg_r; [|exact Ha].
  apply Qclt_le_weak, Qcinv_pos, Hc.
Qed.

(** Sums of finite values. *)
Lemma fold_fadd_nonneg (l : list xq) (acc : Qc) :
  Forall xnonneg l ->
  exists s, fold_left fadd l (XFin acc) = XFin (acc + s) /\ 0 <= s.
Proof.
  intros Hl. revert acc. induction Hl as [|x l (a & -> & Ha) Hl IH]; intros acc.
  - exists 0. split; [simpl; f_equal; ring|apply Qcle_refl].
  - cbn [fold_left]. change (fadd (XFin acc) (XFin a)) with (XFin (acc + a)).
    destruct (IH (acc + a)) as (s & -> & Hs).
    exists (a + s). split; [f_equal; ring|]. now apply Qcplus_nonneg_nonneg.
Qed.

Lemma fold_fadd_unit (l : list xq) (acc : Qc) :
  Forall in_unit l ->
  exists s, fold_left fadd l (XFin acc) = XFin (acc + s) /\ 0 <= s /\
            s <= Qc_of_Z (Z.of_nat (length l)).
Proof.
  intros Hl. revert acc. induction Hl as [|x l (a & -> & Ha0 & Ha1) Hl IH]; intros acc.
  - exists 0. split; [simpl; f_equal; ring|]. split; [apply Qcle_refl|].
    change (Z.of_nat (length (@nil xq))) with 0%Z. rewrite Qc_of_Z_0. apply Qcle_refl.
  - cbn [fold_left]. change (fadd (XFin acc) (XFin a)) with (XFin (acc + a)).
    destruct (IH (acc + a)) as (s & -> & Hs0 & Hs1).
    exists (a + s). split; [f_equal; ring|]. split; [now apply Qcplus_nonneg_nonneg|].
    cbn [length]. rewrite Nat2Z.inj_succ, <- Z.add_1_l, Z2Qc_inj_add, Z2Qc_inj_1.
    now apply Qcplus_le_compat.
Qed.

Lemma fsum_nonneg (l : list xq) : Forall xnonneg l -> xnonneg (fsum l).
Proof.
  intros Hl. destruct (fold_fadd_nonneg l 0 Hl) as (s & Hs & Hs0).
  exists s. split; [|exact Hs0]. unfold fsum.
  change (of_Z 0%Z) with (XFin (Qc_of_Z 0)). rewrite Qc_of_Z_0, Hs. f_equal. ring.
Qed.

Lemma in_unit_nonneg x : in_unit x -> xnonneg x.
Proof. intros (a & -> & Ha & _). now exists a. Qed.

(** The mean of [n > 0] values in [0, 1] is in [0, 1]. *)
Lemma mean_unit (l : list xq) (n : nat) :
  Forall in_unit l -> length l = n -> (0 < n)%nat ->
  in_unit (fdiv (fsum l) (of_Z (Z.of_nat n))).
Proof.
  intros Hl Hn Hpos. destruct (fold_fadd_unit l 0 Hl) as (s & Hs & Hs0 & Hs1).
  unfold fsum. change (of_Z 0%Z) with (XFin (Qc_of_Z 0)). rewrite Qc_of_Z_0, Hs.
  change (of_Z (Z.of_nat n)) with (XFin (Qc_of_Z (Z.of_nat n))).
  assert (Hc : 0 < Qc_of_Z (Z.of_nat n)) by (apply Qc_of_Z_pos; lia).
  rewrite xdiv_fin by (apply Qc_pos_neq, Hc).
  eexists. split; [reflexivity|]. rewrite Qcplus_0_l. rewrite Hn in Hs1.
  split; [now apply Qcdiv_nonneg | now apply Qcdiv_le_1].
Qed.

Lemma mean_nonneg (l : list xq) (n : nat) :
  Forall xnonneg l -> (0 < n)%nat ->
  xnonneg (fdiv (fsum l) (of_Z (Z.of_nat n))).
Proof.
  intros Hl Hpos. destruct (fsum_nonneg l Hl) as (s & -> & Hs).
  change (of_Z (Z.of_nat n)) with (XFin (Qc_of_Z (Z.of_nat n))).
  assert (Hc : 0 < Qc_of_Z (Z.of_nat n)) by (apply Qc_of_Z_pos; lia).
  rewrite xdiv_fin by (apply Qc_pos_neq, Hc).
  eexists. split; [reflexivity|]. now apply Qcdiv_nonneg.
Qed.

Lemma valid_pixel_inv x :
  valid_pixel x = true -> exists a, x = XFin a /\ 0 <= a /\ a <= Qc_of_Z 255.
Proof.
  unfold valid_pixel. rewrite andb_true_iff. intros [H0 H1].
  destruct x as [|a]; [discriminate|]. exists a. split; [reflexivity|].
  change (of_Z 0%Z) with (XFin (Qc_of_Z 0)) in H0.
  change (of_Z 255%Z) with (XFin (Qc_of_Z 255)) in H1.
  apply xle_iff in H0, H1. rewrite Qc_of_Z_0 in H0. split; assumption.
Qed.

Lemma normalize_unit (a : ndarray xq) :
  Forall (fun v => valid_pixel v = true) (flat a) -> Forall in_unit (flat (normalize a)).
Proof.
  intros Ha. unfold normalize. rewrite flat_amap. apply Forall_fmap.
  eapply Forall_impl; [exact Ha|]. intros x Hx. simpl.
  destruct (valid_pixel_inv x Hx) as (v & -> & H0 & H1).
  assert (Hc : 0 < Qc_of_Z 255) by (apply Qc_of_Z_pos; lia).
  change (of_Z 255%Z) with (XFin (Qc_of_Z 255)).
  rewrite xdiv_fin by (apply Qc_pos_neq, Hc).
  eexists. split; [reflexivity|].
  split; [now apply Qcdiv_nonneg | now apply Qcdiv_le_1].
Qed.

Lemma Qcabs_nonneg a : 0 <= Qcabs a.
Proof.
  unfold Qcabs. destruct (Qclt_le_dec a 0) as [H|H]; [|exact H].
  apply Qclt_le_weak in H. apply Qcopp_le_compat in H.
  replace (- 0) with 0 in H by ring. exact H.
Qed.

Lemma mae_value_nonneg (NP NG : ndarray xq) :
  Forall in_unit (flat NP) -> Forall in_unit (flat NG) -> (0 < asize NP)%nat ->
  xnonneg (mae_value NP NG).
Proof.
  intros HP HG Hn. unfold mae_value, amean.
  apply mean_nonneg; [|exact Hn].
  apply all_entries_flat.
  apply (all_entries_amap (fun x => exists a, x = XFin a) xnonneg).
  - intros x (a & ->). exists (Qcabs a). split; [reflexivity|apply Qcabs_nonneg].
  - apply (all_entries_azip in_unit in_unit); try (now apply all_entries_flat).
    intros x y (a & -> & _) (b & -> & _). now exists (a - b).
Qed.

Lemma fold_add_nonneg (l : list Z) (acc : Z) :
  Forall (fun z => (0 <= z)%Z) l -> (0 <= acc)%Z -> (0 <= fold_left Z.add l acc)%Z.
Proof.
  intros Hl. revert acc. induction Hl as [|z l Hz Hl IH]; intros acc Hacc; simpl; [exact Hacc|].
  apply IH. lia.
Qed.

Lemma isum_nonneg (a : ndarray Z) : all_entries (fun z => (0 <= z)%Z) a -> (0 <= isum a)%Z.
Proof.
  intros Ha. unfold isum. apply fold_add_nonneg; [|lia]. now apply all_entries_flat.
Qed.

Lemma binarize_entries (x : ndarray xq) (t : xq) :
  all_entries (fun z => (0 <= z)%Z) (binarize x t).
Proof.
  rewrite binarize_amap.
  apply (all_entries_amap (fun _ => True)).
  - intros v _. destruct (fgtb v t); lia.
  - unfold all_entries. apply Forall_true. intros r. now apply Forall_true.
Qed.

Lemma eps_pos : exists e, epsilon (@init _ AFx) = XFin e /\ 0 < e.
Proof.
  exists (Qc_of_Z 1 / Qc_of_Z (10 ^ 4)). split.
  - unfold init, epsilon, lit. apply xdiv_fin. apply Qc_pos_neq, Qc_of_Z_pos. lia.
  - unfold Qcdiv. apply Qcmult_pos_pos; [apply Qc_of_Z_pos; lia|].
    apply Qcinv_pos, Qc_of_Z_pos. lia.
Qed.

Lemma ratio_nonneg (n k : Z) (e : Qc) :
  (0 <= n)%Z -> (0 <= k)%Z -> 0 < e ->
  xnonneg (fdiv (fadd (of_Z n) (XFin e)) (fadd (of_Z k) (XFin e))).
Proof.
  intros Hn Hk He.
  change (of_Z n) with (XFin (Qc_of_Z n)). change (of_Z k) with (XFin (Qc_of_Z k)).
  change (fadd (XFin (Qc_of_Z n)) (XFin e)) with (XFin (Qc_of_Z n + e)).
  change (fadd (XFin (Qc_of_Z k)) (XFin e)) with (XFin (Qc_of_Z k + e)).
  assert (Hd : 0 < Qc_of_Z k + e)
    by (apply Qcplus_nonneg_pos; [now apply Qc_of_Z_nonneg|exact He]).
  rewrite xdiv_fin by (apply Qc_pos_neq, Hd).
  eexists. split; [reflexivity|]. apply Qcdiv_nonneg; [|exact Hd].
  apply Qclt_le_weak, Qcplus_nonneg_pos; [now apply Qc_of_Z_nonneg|exact He].
Qed.

Lemma land_entries (a b : ndarray Z) :
  all_entries (fun z => (0 <= z)%Z) a -> all_entries (fun z => (0 <= z)%Z) b ->
  all_entries (fun z => (0 <= z)%Z) (azip Z.land a b).
Proof.
  apply all_entries_azip. intros x y Hx Hy. apply Z.land_nonneg. now left.
Qed.

Lemma precision_inc_nonneg (P G : ndarray xq) (T : Z) (th : nat) :
  xnonneg (precision_inc P G (epsilon init) T th).
Proof.
  destruct eps_pos as (e & -> & He). unfold precision_inc.
  apply ratio_nonneg; [| |exact He].
  - apply isum_nonneg, land_entries; apply binarize_entries.
  - apply isum_nonneg, binarize_entries.
Qed.

Lemma recall_inc_nonneg (P G : ndarray xq) (T : Z) (th : nat) :
  xnonneg (recall_inc P G (epsilon init) T th).
Proof.
  destruct eps_pos as (e & -> & He). unfold recall_inc.
  apply ratio_nonneg; [| |exact He].
  - apply isum_nonneg, land_entries; apply binarize_entries.
  - apply isum_nonneg, binarize_entries.
Qed.

Lemma clamp_nonneg x : pynonneg (clamp x).
Proof.
  unfold clamp. destruct x as [|a]; [simpl; lia|].
  destruct (fltb (XFin a) (of_Z 0%Z)) eqn:E; [simpl; lia|].
  cbn [orb fisnan AFx exact_arith]. cbn. exists a. split; [reflexivity|].
  apply Qcnot_lt_le. intros Hlt.
  change (of_Z 0%Z) with (XFin (Qc_of_Z 0)) in E. rewrite Qc_of_Z_0 in E.
  apply xlt_iff in Hlt. congruence.
Qed.

Lemma s_measure_value_nonneg (NP NG : ndarray xq) :
  Forall in_unit (flat NP) -> length (flat NP) = asize NP -> (0 < asize NP)%nat ->
  pynonneg (s_measure_value NP NG).
Proof.
  intros HP Hlen Hn. unfold s_measure_value.
  assert (Hm : in_unit (amean NP)) by (apply mean_unit; assumption).
  destruct Hm as (t & Ht & Ht0 & Ht1).
  destruct (feqb (amean NG) (of_Z 0%Z)).
  - rewrite Ht. change (of_Z 1%Z) with (XFin (Qc_of_Z 1)). rewrite Z2Qc_inj_1.
    exists (1 - t). split; [reflexivity|].
    unfold Qcminus. apply (proj1 (Qcle_minus_iff t 1)), Ht1.
  - destruct (feqb (amean NG) (of_Z 1%Z)).
    + rewrite Ht. now exists t.
    + apply clamp_nonneg.
Qed.

Lemma fleb_fadd x d : finite x -> xnonneg d -> fleb x (fadd x d) = true.
Proof.
  intros Hx (b & -> & Hb). destruct x as [|a]; [discriminate|].
  change (fadd (XFin a) (XFin b)) with (XFin (a + b)). apply xle_iff.
  rewrite <- (Qcplus_0_r a) at 1. now apply Qcplus_le_compat; [apply Qcle_refl|].
Qed.

Lemma pynonneg_to_F (v : pyval xq) : pynonneg v -> xnonneg (to_F v).
Proof.
  destruct v as [n|x]; simpl; [|auto]. intros Hn.
  exists (Qc_of_Z n). split; [reflexivity|now apply Qc_of_Z_nonneg].
Qed.

Lemma Forall2_zip_add (l d : list xq) :
  Forall finite l -> Forall xnonneg d -> length l = length d ->
  Forall2 (fun u v => fleb u v = true) l (zip_with fadd l d).
Proof.
  intros Hl. revert d. induction Hl as [|x l Hx Hl IH]; intros d Hd Hlen.
  - constructor.
  - destruct Hd as [|y d Hy Hd]; [discriminate|]. cbn [zip_with]. constructor.
    + now apply fleb_fadd.
    + apply IH; [exact Hd|]. simpl in Hlen. lia.
Qed.

Lemma finite_fadd x d : finite x -> xnonneg d -> finite (fadd x d).
Proof. intros Hx (b & -> & _). destruct x; [discriminate|reflexivity]. Qed.

Lemma Forall_finite_zip_add (l d : list xq) :
  Forall finite l -> Forall xnonneg d -> Forall finite (zip_with fadd l d).
Proof.
  intros Hl. revert d. induction Hl as [|x l Hx Hl IH]; intros d Hd; [constructor|].
  destruct Hd as [|y d Hy Hd]; cbn [zip_with]; constructor.
  - now apply finite_fadd.
  - now apply IH.
Qed.

Lemma init_sums_finite : sums_finite (@init _ AFx).
Proof.
  repeat split; try reflexivity; apply Forall_forall; intros x Hx;
    apply elem_of_replicate in Hx as [-> _]; reflexivity.
Qed.

(** C6.  For a valid pair (well-formed arrays of one shape with at
    least one pixel, values in 0..255), [update] adds a non-negative
    amount to [mae], to [q] and to every entry of [precision] and
    [recall]; so, when no sum is undefined (as in a new object), no sum
    decreases and none becomes undefined.  The S-measure amount is
    [1 - mean], [mean], or the clamped score. *)
Theorem update_adds_nonneg (w : world xq) (pred gt : loc) (P G : ndarray xq) :
  heap w !! pred = Some P -> heap w !! gt = Some G ->
  valid_pair (P, G) = true -> metric_inv (self w) ->
  exists w' dm dq dP dR,
    update pred gt w = (inr tt, w') /\
    xnonneg dm /\ pynonneg dq /\ Forall xnonneg dP /\ Forall xnonneg dR /\
    length dP = 256%nat /\ length dR = 256%nat /\
    mae (self w') = py_add (mae (self w)) (NpFloat dm) /\
    q (self w') = py_add (q (self w)) dq /\
    precision (self w') = zip_with fadd (precision (self w)) dP /\
    recall (self w') = zip_with fadd (recall (self w)) dR /\
    (sums_finite (self w) -> sums_le (self w) (self w') /\ sums_finite (self w')).
Proof.
  intros HP HG Hv Hm. unfold valid_pair in Hv. cbn [fst snd] in Hv.
  apply andb_true_iff in Hv as [Hv Hs]. apply andb_true_iff in Hv as [HvP HvG].
  destruct (valid_image_inv P HvP) as (HlP & HnP & HpP).
  destruct (valid_image_inv G HvG) as (HlG & HnG & HpG).
  pose proof (normalize_unit P HpP) as HuP. pose proof (normalize_unit G HpG) as HuG.
  assert (HlNP : length (flat (normalize P)) = asize (normalize P)).
  { unfold normalize at 1. rewrite flat_amap, length_map. exact HlP. }
  set (dm := mae_value (normalize P) (normalize G)).
  set (dq := s_measure_value (normalize P) (normalize G)).
  set (dP := map (precision_inc P G (epsilon init) 256) (seq 0 256)).
  set (dR := map (recall_inc P G (epsilon init) 256) (seq 0 256)).
  assert (Hdm : xnonneg dm) by (now apply mae_value_nonneg).
  assert (Hdq : pynonneg dq) by (now apply s_measure_value_nonneg).
  assert (HdP : Forall xnonneg dP).
  { apply Forall_fmap, Forall_true. intros th. apply precision_inc_nonneg. }
  assert (HdR : Forall xnonneg dR).
  { apply Forall_fmap, Forall_true. intros th. apply recall_inc_nonneg. }
  assert (HlP' : length dP = 256%nat) by (unfold dP; now rewrite length_map, length_seq).
  assert (HlR' : length dR = 256%nat) by (unfold dR; now rewrite length_map, length_seq).
  exists (mkWorld (heap w ++ [P; G; normalize P; s_measure_gt (normalize G)])
                  (step (self w) P G) (stdout w)), dm, dq, dP, dR.
  split; [now apply update_spec|].
  do 6 (split; [assumption|]).
  cbn [self]. rewrite (step_spec _ P G Hm).
  destruct Hm as (He & Hb & Ht & Hf & Hp & Hr).
  cbn [mae q precision recall]. rewrite !imap_as_zip, Hp, Hr.
  do 4 (split; [reflexivity|]).
  intros (Fm & Fq & Fp & Fr). unfold sums_le, sums_finite. cbn [mae q precision recall].
  rewrite !to_F_py_add. split.
  - split; [now apply fleb_fadd|].
    split; [apply fleb_fadd; [exact Fq|now apply pynonneg_to_F]|].
    split; apply Forall2_zip_add; try assumption; lia.
  - split; [now apply finite_fadd|].
    split; [apply finite_fadd; [exact Fq|now apply pynonneg_to_F]|].
    split; now apply Forall_finite_zip_add.
Qed.

(** *** The centroid *)









End ExactProofs.

(** ** Further facts about the binary64 instance *)

(** The clamp of [compute_s_measure] leaves 0 or a float that is not
    below zero, in every IEEE format. *)
Lemma clamp_nonneg_ieee (prec emax : Z) (v : spec_float) :
  match @clamp _ (IEEE.ieee_arith prec emax) v with
  | PyInt z => z = 0
  | NpFloat x => SFleb (S754_zero false) x = true
  end.
Proof. destruct v as [[|]|[|]| |[|] m e]; reflexivity. Qed.

(** On a pixel of value 0 or 255 the comparison with [th / 256] gives the
    same answer before and after division by 255, for every threshold. *)
Definition binary_pixel_agrees (th : nat) (g : Z) : bool :=
  Bool.eqb (@fgtb _ IEEE.b64 (@of_Z _ IEEE.b64 g)
              (@fdiv _ IEEE.b64 (@of_Z _ IEEE.b64 (Z.of_nat th)) (@of_Z _ IEEE.b64 256)))
           (@fgtb _ IEEE.b64 (@fdiv _ IEEE.b64 (@of_Z _ IEEE.b64 g) (@of_Z _ IEEE.b64 255))
              (@fdiv _ IEEE.b64 (@of_Z _ IEEE.b64 (Z.of_nat th)) (@of_Z _ IEEE.b64 256))).

Lemma binary_pixels_agree :
  forallb (fun th => binary_pixel_agrees th 0 && binary_pixel_agrees th 255) (seq 0 256) = true.
Proof. vm_compute. reflexivity. Qed.

(** So for a 0/255 mask the sweep's count is also the count on the
    normalised mask. *)
Lemma binary_mask_counts_agree (G : ndarray spec_float) (th : nat) :
  (th < 256)%nat ->
  Forall (fun g => g = @of_Z _ IEEE.b64 0 \/ g = @of_Z _ IEEE.b64 255) (flat G) ->
  isum (@gt_mask _ IEEE.b64 G 256 th) = @gt_positive_normalized _ IEEE.b64 G th.
Proof.
  intros Hth HG.
  unfold gt_mask. rewrite (@isum_binarize _ IEEE.b64 (ieee_order 53 1024)).
  unfold count_above, gt_positive_normalized. do 2 f_equal.
  apply filter_ext_in. intros g Hg.
  pose proof binary_pixels_agree as Hall. rewrite forallb_forall in Hall.
  specialize (Hall th). rewrite in_seq in Hall.
  assert (Hb : binary_pixel_agrees th 0 && binary_pixel_agrees th 255 = true)
    by (apply Hall; lia).
  apply andb_true_iff in Hb as [H0 H255].
  rewrite Forall_forall in HG. apply list_elem_of_In in Hg.
  destruct (HG g Hg) as [-> | ->]; apply eqb_prop; assumption.
Qed.

(** The centroid in binary64: an empty 3x5 mask gives the 1x1 arrays
    [round(5/2) = 2] and [round(3/2) = 2]; the mask [mixed_gt] gives the
    integers 1 and 1. *)
Example centroid_b64 :
  @_centroid _ IEEE.b64 (@const_image _ IEEE.b64 3 5 0) = (Arr11 2, Arr11 2) /\
  @_centroid _ IEEE.b64 (@normalize _ IEEE.b64 (mixed_gt IEEE.b64)) = (Int64 1, Int64 1).
Proof. split; vm_compute; reflexivity. Qed.

(** The general branch of [compute_s_measure] in binary64, on
    [mixed_pred] and [mixed_gt]: the value added to [q]. *)
Example s_measure_b64 :
  q (self (@after_feed _ IEEE.b64 [(mixed_pred IEEE.b64, mixed_gt IEEE.b64)]))
    = NpFloat (S754_finite false 7153313718240688 (-53)).
Proof. vm_compute. reflexivity. Qed.

(** With [soft_gt], after [update] the caller's array (location 1) is as
    it was, and the normalised copy (location 5) has been binarised. *)
Example binarisation_hits_the_copy :
  let w' := snd (@update _ IEEE.b64 0%nat 1%nat
                   (caller IEEE.b64 (mixed_pred IEEE.b64) (soft_gt IEEE.b64))) in
  heap w' !! 1%nat = Some (soft_gt IEEE.b64) /\
  heap w' !! 5%nat = Some (@image_of _ IEEE.b64 2 3 [[0; 1; 0]; [0; 1; 1]]) /\
  heap w' !! 5%nat <> Some (@normalize _ IEEE.b64 (soft_gt IEEE.b64)).
Proof. repeat split; vm_compute; (reflexivity || discriminate). Qed.

(** ** The theorems at concrete inputs *)

#[local] Abbreviation B := IEEE.b64.
#[local] Abbreviation X := (Exact.exact_arith (fun a : Qc => a)).

Lemma update_shape_contract_witness :
  heap (caller B (mixed_pred B) (wide_gt B)) !! 0%nat = Some (mixed_pred B) /\
  heap (caller B (mixed_pred B) (wide_gt B)) !! 1%nat = Some (wide_gt B) /\
  shape (mixed_pred B) <> shape (wide_gt B) /\
  @update _ B 0%nat 1%nat (caller B (mixed_pred B) (wide_gt B))
    = (inl AssertionError, caller B (mixed_pred B) (wide_gt B)) /\
  exists w', @update _ B 0%nat 1%nat (caller B (mixed_pred B) (mixed_gt B)) = (inr tt, w') /\
             cnt (self w') = cnt (self (caller B (mixed_pred B) (mixed_gt B))) + 1.
Proof.
  split; [reflexivity|]. split; [reflexivity|].
  assert (Hne : shape (mixed_pred B) <> shape (wide_gt B)) by (vm_compute; discriminate).
  split; [exact Hne|]. split.
  - exact (proj1 (@update_shape_contract _ B (caller B (mixed_pred B) (wide_gt B))
                    0%nat 1%nat _ _ eq_refl eq_refl) Hne).
  - exact (proj2 (@update_shape_contract _ B (caller B (mixed_pred B) (mixed_gt B))
                    0%nat 1%nat _ _ eq_refl eq_refl) eq_refl).
Defined.

Lemma update_preserves_arrays_witness :
  shape (mixed_pred B) = shape (soft_gt B) /\
  exists w', @update _ B 0%nat 1%nat (caller B (mixed_pred B) (soft_gt B)) = (inr tt, w') /\
    heap w' = heap (caller B (mixed_pred B) (soft_gt B)) ++
              [mixed_pred B; soft_gt B; @normalize _ B (mixed_pred B);
               @s_measure_gt _ B (@normalize _ B (soft_gt B))] /\
    heap w' !! 0%nat = Some (mixed_pred B) /\ heap w' !! 1%nat = Some (soft_gt B) /\
    (forall l a, heap (caller B (mixed_pred B) (soft_gt B)) !! l = Some a ->
                 heap w' !! l = Some a).
Proof.
  split; [reflexivity|].
  exact (@update_preserves_arrays _ B (caller B (mixed_pred B) (soft_gt B))
           0%nat 1%nat _ _ eq_refl eq_refl eq_refl).
Defined.

Lemma sweep_compares_raw_gt_witness :
  exists w', @update _ B 0%nat 1%nat (caller B (mixed_pred B) (mixed_gt B)) = (inr tt, w') /\
    self w' = @step _ B (self (caller B (mixed_pred B) (mixed_gt B)))
                (mixed_pred B) (mixed_gt B) /\
    forall th : nat,
      isum (@pred_mask _ B (mixed_pred B) th)
        = @count_above _ B (mixed_pred B) (@of_Z _ B (Z.of_nat th)) /\
      isum (@gt_mask _ B (mixed_gt B)
              (thresholds (self (caller B (mixed_pred B) (mixed_gt B)))) th)
        = @gt_positive_raw _ B (mixed_gt B)
            (thresholds (self (caller B (mixed_pred B) (mixed_gt B)))) th.
Proof.
  exact (@sweep_compares_raw_gt _ B (ieee_order 53 1024)
           (caller B (mixed_pred B) (mixed_gt B)) 0%nat 1%nat _ _
           eq_refl eq_refl eq_refl).
Defined.

Lemma merge_equals_sequence_witness :
  Forall (@same_shape _) (first_half X) /\ Forall (@same_shape _) (second_half X) /\
  merge_as_sequence X (first_half X) (second_half X).
Proof.
  assert (H1 : Forall (@same_shape _) (first_half X))
    by (repeat constructor).
  assert (H2 : Forall (@same_shape _) (second_half X))
    by (repeat constructor).
  split; [exact H1|]. split; [exact H2|].
  exact (proj1 (merge_equals_sequence (fun a : Qc => a) _ _ H1 H2)).
Defined.

Lemma report_equals_reference_witness :
  1 <= cnt (self (all_255 X)) /\ @metric_inv _ X (self (all_255 X)) /\
  @print_result _ X (all_255 X) =
    (inr tt, mkWorld (heap (all_255 X)) (self (all_255 X))
               (stdout (all_255 X) ++ @report_lines _ (@summarize_ref _ X (self (all_255 X))))).
Proof.
  assert (Hc : 1 <= cnt (self (all_255 X))) by (vm_compute; discriminate).
  assert (Hm : @metric_inv _ X (self (all_255 X)))
    by (repeat split; vm_compute; reflexivity).
  split; [exact Hc|]. split; [exact Hm|].
  exact (proj1 (report_equals_reference (fun a : Qc => a) (all_255 X) Hc Hm)).
Defined.

Lemma update_adds_nonneg_witness :
  @valid_pair _ X (mixed_pred X, mixed_gt X) = true /\
  exists w' dm dq dP dR,
    @update _ X 0%nat 1%nat (caller X (mixed_pred X) (mixed_gt X)) = (inr tt, w') /\
    xnonneg dm /\ pynonneg dq /\ Forall xnonneg dP /\ Forall xnonneg dR /\
    length dP = 256%nat /\ length dR = 256%nat /\
    mae (self w') = @py_add _ X (mae (self (caller X (mixed_pred X) (mixed_gt X)))) (NpFloat dm) /\
    q (self w') = @py_add _ X (q (self (caller X (mixed_pred X) (mixed_gt X)))) dq /\
    precision (self w')
      = zip_with (@fadd _ X) (precision (self (caller X (mixed_pred X) (mixed_gt X)))) dP /\
    recall (self w')
      = zip_with (@fadd _ X) (recall (self (caller X (mixed_pred X) (mixed_gt X)))) dR /\
    (@sums_finite _ X (self (caller X (mixed_pred X) (mixed_gt X))) ->
     @sums_le _ X (self (caller X (mixed_pred X) (mixed_gt X))) (self w') /\
     @sums_finite _ X (self w')).
Proof.
  assert (Hv : @valid_pair _ X (mixed_pred X, mixed_gt X) = true)
    by (vm_compute; reflexivity).
  split; [exact Hv|].
  exact (update_adds_nonneg (fun a : Qc => a) (caller X (mixed_pred X) (mixed_gt X))
           0%nat 1%nat _ _ eq_refl eq_refl Hv (@init_inv _ X)).
Defined.

